(** * Bounding box tree construction (mesh_query0.1/bounding_box_tree.h)

    A shallow embedding of [BoundingBoxTree::construct_from_leaf_boxes] and
    [BoundingBoxTree::construct_recursively], and the properties of the
    hierarchy they build.

    - C++ [double] is the kernel's binary64 type [float] (round to nearest,
      ties to even), so every comparison and rounding below is the one the
      compiled program performs.
    - [unsigned int] counters are [nat], the [int] scan pointers [i] and [j]
      of the partition are [Z]; the two conversions between them that the
      source performs are written out ([int_of_uint], [uint_of_int]).
    - [local_index] is a pointer into the build-wide permutation array: it is
      modelled as the whole array together with an offset, and the array is
      threaded through the recursion, since the partition works in place.
    - The assertions of the source are an outcome of their own
      ([AssertionFailed]); running out of recursion fuel is a third one, and
      is shown never to happen. *)

From Stdlib Require Import ZArith Floats Uint63 Lia ZifyBool.
From stdpp Require Import base list gmap.

(** ** Outcomes *)

Inductive outcome (A : Type) : Type :=
  | Done (a : A)
  | AssertionFailed
  | OutOfFuel.
Arguments Done {A} a.
Arguments AssertionFailed {A}.
Arguments OutOfFuel {A}.

Definition bind {A B : Type} (m : outcome A) (k : A → outcome B) : outcome B :=
  match m with
  | Done a => k a
  | AssertionFailed => AssertionFailed
  | OutOfFuel => OutOfFuel
  end.

Notation "'run' x <- m 'in' k" := (bind m (fun x => k))
  (at level 10, x pattern, m at level 100, k at level 200).

(** [assert(c)] *)
Definition assert {A : Type} (c : bool) (k : outcome A) : outcome A :=
  if c then k else AssertionFailed.

(** ** Machine integers *)

Definition INT_MAX : Z := 2147483647.
Definition UINT_MOD : Z := 4294967296.

(** conversion of an [unsigned int] value to [int] *)
Definition int_of_uint (u : Z) : Z :=
  if (u <=? INT_MAX)%Z then u else (u - UINT_MOD)%Z.

(** the cast [(unsigned int)i] *)
Definition uint_of_int (i : Z) : Z := (i mod UINT_MOD)%Z.

(** ** Geometry *)

Record Vec3d : Type := mkVec3d { vx : float; vy : float; vz : float }.

(** [v[a]] *)
Definition vnth (v : Vec3d) (a : nat) : float :=
  match a with
  | 0 => vx v
  | 1 => vy v
  | _ => vz v
  end.

(** Modelled from the spec: [vec.h] is not among the sources; the spec's data
    model asks for "3-component vector arithmetic": componentwise [+=], the
    product with a scalar ([0.5*v] and [v*=s]; the product of binary64
    values is commutative) and componentwise [==]. *)
Definition vec_add (u v : Vec3d) : Vec3d :=
  mkVec3d (vx u + vx v) (vy u + vy v) (vz u + vz v).

Definition vec_scale (s : float) (v : Vec3d) : Vec3d :=
  mkVec3d (s * vx v) (s * vy v) (s * vz v).

Definition vec_eqb (u v : Vec3d) : bool :=
  (vx u =? vx v)%float && (vy u =? vy v)%float && (vz u =? vz v)%float.

Record BoundingBox : Type := mkBox { xmin : Vec3d; xmax : Vec3d }.

(** [amin = min(amin, x)] and [amax = max(amax, x)] as a conditional
    assignment: the stored bound changes only for a strictly smaller
    (larger) candidate. *)
Definition fmin (cur x : float) : float := if (x <? cur)%float then x else cur.
Definition fmax (cur x : float) : float := if (cur <? x)%float then x else cur.

Definition vec_min (cur x : Vec3d) : Vec3d :=
  mkVec3d (fmin (vx cur) (vx x)) (fmin (vy cur) (vy x)) (fmin (vz cur) (vz x)).
Definition vec_max (cur x : Vec3d) : Vec3d :=
  mkVec3d (fmax (vx cur) (vx x)) (fmax (vy cur) (vy x)) (fmax (vz cur) (vz x)).

(** Modelled from the spec: [bounding_box.h] is not among the sources. The
    spec's AABB is "a pair of corner vectors (min, max) over 3 axes" that
    "supports union-with-box, union-with-point": the constructor from a
    point, [include_point] and [include_box]. *)
Definition box_of_point (x : Vec3d) : BoundingBox := mkBox x x.

Definition include_point (b : BoundingBox) (x : Vec3d) : BoundingBox :=
  mkBox (vec_min (xmin b) x) (vec_max (xmax b) x).

Definition include_box (b other : BoundingBox) : BoundingBox :=
  mkBox (vec_min (xmin b) (xmin other)) (vec_max (xmax b) (xmax other)).

#[global] Instance Vec3d_inhabited : Inhabited Vec3d :=
  populate (mkVec3d 0 0 0).
#[global] Instance BoundingBox_inhabited : Inhabited BoundingBox :=
  populate (mkBox inhabitant inhabitant).

(** [0.5*(box.xmin+box.xmax)] *)
Definition box_centroid (b : BoundingBox) : Vec3d :=
  vec_scale 0.5 (vec_add (xmin b) (xmax b)).

(** ** The tree *)

#[warnings="-register-all"]
Inductive BoundingBoxTree : Type :=
  Node { box : BoundingBox; index : list Z; children : list BoundingBoxTree }.

(** [clear()]: the node keeps its box and drops its indices and children. *)
Definition clear (t : BoundingBoxTree) : BoundingBoxTree := Node (box t) [] [].

(** ** Reading through [local_index]

    [local_index] is the array [a] seen from offset [off]. A read outside
    the array is undefined in the source; here it yields the default of
    [!!!], and the invariants below show that it does not occur. *)

Definition local (a : list nat) (off k : nat) : nat := a !!! (off + k).

(** [std::swap(local_index[i], local_index[j])] *)
Definition swap (a : list nat) (off : nat) (i j : Z) : list nat :=
  <[off + Z.to_nat i := local a off (Z.to_nat j)]>
    (<[off + Z.to_nat j := local a off (Z.to_nat i)]> a).

(** Lines 119-133: the in-place split of the slice about [split]. *)
Section Partition.
Variables (centroid : list Vec3d) (axis : nat) (split : float).
Variables (off num_indices : nat).

(** [centroid[local_index[k]][axis]] *)
Definition key (a : list nat) (k : Z) : float :=
  vnth (centroid !!! local a off (Z.to_nat k)) axis.

(** [while((unsigned int)i<num_indices && key(i)<=split) ++i;] *)
Fixpoint scan_up (fuel : nat) (a : list nat) (i : Z) : outcome Z :=
  match fuel with
  | 0 => OutOfFuel
  | S fuel' =>
      if (uint_of_int i <? Z.of_nat num_indices)%Z && (key a i <=? split)%float
      then scan_up fuel' a (i + 1)%Z
      else Done i
  end.

(** [while(j>=0 && key(j)>split) --j;] *)
Fixpoint scan_down (fuel : nat) (a : list nat) (j : Z) : outcome Z :=
  match fuel with
  | 0 => OutOfFuel
  | S fuel' =>
      if (0 <=? j)%Z && (split <? key a j)%float
      then scan_down fuel' a (j - 1)%Z
      else Done j
  end.

(** the [for(;;)] loop *)
Fixpoint partition_loop (fuel : nat) (a : list nat) (i j : Z)
  : outcome (Z * list nat) :=
  match fuel with
  | 0 => OutOfFuel
  | S fuel' =>
      run i' <- scan_up (S num_indices) a i in
      run j' <- scan_down (S num_indices) a j in
      if (i' <? j')%Z
      then partition_loop fuel' (swap a off i' j') (i' + 1)%Z (j' - 1)%Z
      else Done (i', a)
  end.

(** [int i=0, j=num_indices-1;] and the loop *)
Definition partition (a : list nat) : outcome (Z * list nat) :=
  partition_loop (S num_indices) a 0%Z
    (int_of_uint (Z.of_nat num_indices - 1)).
End Partition.

(** Lines 106-111: the split axis. *)
Definition extent (cb : BoundingBox) (a : nat) : float :=
  (vnth (xmax cb) a - vnth (xmin cb) a)%float.

Definition select_axis (cb : BoundingBox) : nat :=
  fold_left
    (fun axis a => if (extent cb axis <? extent cb a)%float then a else axis)
    [1; 2] 0.

(** Lines 115-117: the split value. *)
Definition midpoint (lo hi : float) : float := (0.5 * (lo + hi))%float.

Definition split_value (cb : BoundingBox) (mean : Vec3d) (axis : nat) : float :=
  let split := vnth mean axis in
  if (split <=? vnth (xmin cb) axis)%float
     || (vnth (xmax cb) axis <=? split)%float
  then midpoint (vnth (xmin cb) axis) (vnth (xmax cb) axis)
  else split.

(** [1./num_indices] *)
Definition reciprocal (num_indices : nat) : float :=
  (1 / of_uint63 (Uint63.of_Z (Z.of_nat num_indices)))%float.

Section Construct.
Variables (input_box : list BoundingBox).
Variables (max_depth boxes_per_leaf : nat).
Variables (centroid : list Vec3d).

(** Lines 79-81: the box of everything in the slice. *)
Definition slice_box (a : list nat) (off num_indices : nat) : BoundingBox :=
  fold_left (fun b k => include_box b (input_box !!! local a off k))
    (seq 1 (num_indices - 1)) (input_box !!! local a off 0).

(** Lines 86-87 and 101-102: [index.resize(num_indices)] and the copy. *)
Definition slice_index (a : list nat) (off num_indices : nat) : list Z :=
  map (fun k => int_of_uint (Z.of_nat (local a off k))) (seq 0 num_indices).

(** Lines 91-96: the box of the centroids of the slice. *)
Definition slice_centroid_box (a : list nat) (off num_indices : nat)
  : BoundingBox :=
  fold_left (fun b k => include_point b (centroid !!! local a off k))
    (seq 1 (num_indices - 1)) (box_of_point (centroid !!! local a off 0)).

(** Lines 92-97: the mean of the centroids of the slice. *)
Definition slice_mean (a : list nat) (off num_indices : nat) : Vec3d :=
  vec_scale (reciprocal num_indices)
    (fold_left (fun m k => vec_add m (centroid !!! local a off k))
       (seq 1 (num_indices - 1)) (centroid !!! local a off 0)).

(** [construct_recursively]. [this_index] and [this_children] are the
    fields of [*this] on entry (its [box] is overwritten first); the result
    is [*this] on exit together with the permutation array. *)
Fixpoint construct_recursively (fuel : nat)
    (this_index : list Z) (this_children : list BoundingBoxTree)
    (current_depth num_indices : nat) (a : list nat) (off : nat)
  : outcome (BoundingBoxTree * list nat) :=
  assert (0 <? num_indices)
  match fuel with
  | 0 => OutOfFuel
  | S fuel' =>
    let box := slice_box a off num_indices in
    if (current_depth =? max_depth) || (num_indices <=? boxes_per_leaf) then
      Done (Node box (slice_index a off num_indices) this_children, a)
    else
      let centroid_box := slice_centroid_box a off num_indices in
      let mean := slice_mean a off num_indices in
      if vec_eqb (xmax centroid_box) (xmin centroid_box) then
        Done (Node box (slice_index a off num_indices) this_children, a)
      else
        let axis := select_axis centroid_box in
        let split := split_value centroid_box mean axis in
        run (i, a1) <- partition centroid axis split off num_indices a in
        assert (uint_of_int i <? Z.of_nat num_indices)%Z
        (let i := Z.to_nat i in
         run (child0, a2) <-
           construct_recursively fuel' [] [] (current_depth + 1) i a1 off in
         run (child1, a3) <-
           construct_recursively fuel' [] [] (current_depth + 1)
             (num_indices - i) a2 (off + i) in
         Done (Node box this_index [child0; child1], a3))
  end.
End Construct.

(** Lines 53-57: [global_centroid[i]=0.5*(input_box[i].xmin+input_box[i].xmax)]. *)
Definition global_centroid (n : nat) (input_box : list BoundingBox)
  : list Vec3d :=
  map (fun i => box_centroid (input_box !!! i)) (seq 0 n).

(** [construct_from_leaf_boxes], called on the node [this]. The list
    [input_box] stands for a non-null pointer to the caller's boxes, so of
    the asserted condition [n>=1 && input_box && boxes_per_leaf>0] the two
    tests on numbers remain. The recursion gets the fuel [n]; the outcome
    does not depend on this choice (see the section on termination). *)
Definition construct_from_leaf_boxes (this : BoundingBoxTree) (n : nat)
    (input_box : list BoundingBox) (max_depth boxes_per_leaf : nat)
  : outcome BoundingBoxTree :=
  assert ((1 <=? n) && (0 <? boxes_per_leaf))
  (let this := clear this in
   let global_index := seq 0 n in
   let global_centroid := global_centroid n input_box in
   run (this, _) <-
     construct_recursively input_box max_depth boxes_per_leaf global_centroid
       n (index this) (children this) 0 n global_index 0 in
   Done this).

(** A box that is a single point on the x axis, for examples. *)
Definition point_box (x : float) : BoundingBox :=
  box_of_point (mkVec3d x 0 0).

Definition empty_tree : BoundingBoxTree := Node inhabitant [] [].

(** The test of line 99, the axis of lines 106-111 and the split value of
    lines 115-117, as functions of the slice. *)
Definition centroids_coincide (centroid : list Vec3d)
    (a : list nat) (off num_indices : nat) : bool :=
  let centroid_box := slice_centroid_box centroid a off num_indices in
  vec_eqb (xmax centroid_box) (xmin centroid_box).

Definition slice_axis (centroid : list Vec3d)
    (a : list nat) (off num_indices : nat) : nat :=
  select_axis (slice_centroid_box centroid a off num_indices).

Definition slice_split (centroid : list Vec3d)
    (a : list nat) (off num_indices : nat) : float :=
  split_value (slice_centroid_box centroid a off num_indices)
    (slice_mean centroid a off num_indices)
    (slice_axis centroid a off num_indices).

(** ** Reading the result *)

(** The identifiers [local_index[0..num_indices)], in order. *)
Definition slice (a : list nat) (off num_indices : nat) : list nat :=
  map (local a off) (seq 0 num_indices).

(** The [index] arrays of the leaves (nodes without children), left to
    right. *)
Fixpoint leaf_indices (t : BoundingBoxTree) : list Z :=
  match t with
  | Node _ idx [] => idx
  | Node _ _ cs => flat_map leaf_indices cs
  end.

(** Every node of the tree with its depth, the root being at depth [d]. *)
Fixpoint nodes_from (d : nat) (t : BoundingBoxTree)
  : list (nat * BoundingBoxTree) :=
  match t with
  | Node _ _ cs => (d, t) :: flat_map (nodes_from (S d)) cs
  end.

(** Every node of the tree: the root and all its descendants. *)
Fixpoint nodes (t : BoundingBoxTree) : list BoundingBoxTree :=
  match t with
  | Node _ _ cs => t :: flat_map nodes cs
  end.

(** A node is a leaf or has exactly two children. *)
Definition binary_shape (s : BoundingBoxTree) : Prop :=
  length (children s) = 0 ∨ length (children s) = 2.

(** A leaf holds identifiers, an internal node holds none. *)
Definition indices_at_leaves_only (s : BoundingBoxTree) : Prop :=
  (children s = [] → index s ≠ []) ∧ (children s ≠ [] → index s = []).

(** The test of line 99 on the identifiers a node holds. *)
Definition leaf_centroids_coincide (n : nat) (input_box : list BoundingBox)
    (s : BoundingBoxTree) : bool :=
  let ids := map Z.to_nat (index s) in
  centroids_coincide (global_centroid n input_box) ids 0 (length ids).

(** The depth and leaf-size bound: no node deeper than [max_depth], and a
    leaf is small or at [max_depth]. *)
Definition depth_and_size_bound (max_depth boxes_per_leaf : nat)
    (t : BoundingBoxTree) : Prop :=
  ∀ d s, (d, s) ∈ nodes_from 0 t →
    d ≤ max_depth
    ∧ (children s = [] → length (index s) ≤ boxes_per_leaf ∨ d = max_depth).

(** ** Boxes as unions *)

(** [b == c] on boxes: the [==] of the six coordinates. *)
Definition box_eqb (b c : BoundingBox) : bool :=
  vec_eqb (xmin b) (xmin c) && vec_eqb (xmax b) (xmax c).

Definition vec_leb (u v : Vec3d) : bool :=
  (vx u <=? vx v)%float && (vy u <=? vy v)%float && (vz u <=? vz v)%float.

(** [b] contains [c]. *)
Definition box_contains (b c : BoundingBox) : bool :=
  vec_leb (xmin b) (xmin c) && vec_leb (xmax c) (xmax b).

(** The union of a list of boxes, by [include_box] from left to right. *)
Definition union_boxes (bs : list BoundingBox) : BoundingBox :=
  match bs with
  | [] => inhabitant
  | b :: bs' => fold_left include_box bs' b
  end.

(** The input boxes of the identifiers held by the leaves below [s]. *)
Definition leaf_boxes (input_box : list BoundingBox) (s : BoundingBoxTree)
  : list BoundingBox :=
  (λ i, input_box !!! Z.to_nat i) <$> leaf_indices s.

(** [m] is a least element of [l] for the order [le]. *)
Definition extremum (le : float → float → bool) (m : float) (l : list float)
  : Prop :=
  m ∈ l ∧ ∀ y, y ∈ l → le m y = true.

Definition geb (x y : float) : bool := (y <=? x)%float.

(** Every lower coordinate of [b] is a least, every upper coordinate a
    greatest one among the boxes [bs]. *)
Definition bounds (b : BoundingBox) (bs : list BoundingBox) : Prop :=
  ∀ a, extremum PrimFloat.leb (vnth (xmin b) a) ((λ o, vnth (xmin o) a) <$> bs)
       ∧ extremum geb (vnth (xmax b) a) ((λ o, vnth (xmax o) a) <$> bs).

(** The box of a node is the union of the input boxes below it: it equals
    that union, contains each of these input boxes, equals the union of the
    boxes of its two children when it has them, and contains the box of
    every node below it. *)
Definition box_is_union (input_box : list BoundingBox) (s : BoundingBoxTree)
  : Prop :=
  box_eqb (box s) (union_boxes (leaf_boxes input_box s)) = true
  ∧ (∀ i, i ∈ leaf_indices s →
       box_contains (box s) (input_box !!! Z.to_nat i) = true)
  ∧ (∀ c0 c1, children s = [c0; c1] →
       box_eqb (box s) (include_box (box c0) (box c1)) = true)
  ∧ (∀ s', s' ∈ nodes s → box_contains (box s) (box s') = true).

(** ** Valid boxes *)

(** A valid box has six finite coordinates (no NaN, no infinity). *)
Definition finite_vec (v : Vec3d) : bool :=
  is_finite (vx v) && is_finite (vy v) && is_finite (vz v).

Definition valid_box (b : BoundingBox) : bool :=
  finite_vec (xmin b) && finite_vec (xmax b).

(** ** Example inputs *)

(** The example of the specification: four boxes whose centroids lie at
    x = 0, 1, 10 and 11. *)
Definition example_boxes : list BoundingBox :=
  [point_box 0; point_box 1; point_box 10; point_box 11].

(** Two copies of one box. *)
Definition twin_boxes : list BoundingBox := [point_box 1; point_box 1].

(** The boxes of the specification's example in another order. *)
Definition shuffled_boxes : list BoundingBox :=
  [point_box 10; point_box 1; point_box 0; point_box 11].

(** Two boxes whose centroids are neighbouring binary64 values,
    [1 + 2^-52] and [1 + 2^-51]. *)
Definition adjacent_boxes : list BoundingBox :=
  [point_box 0x1.0000000000001p+0; point_box 0x1.0000000000002p+0].

(** Two point boxes that differ in the sign of a zero coordinate. *)
Definition signed_zero_boxes : list BoundingBox :=
  [box_of_point (mkVec3d 10 0 0); box_of_point (mkVec3d 1 (-0) 0)].

(** Four point boxes with finite coordinates; the centroids of the first
    two overflow, [0.5 * (M + M)] being [+inf] for the largest binary64
    value [M], so that the sum of the centroids is a NaN. *)
Definition overflowing_boxes : list BoundingBox :=
  [point_box 0x1.fffffffffffffp+1023; point_box (-0x1.fffffffffffffp+1023);
   point_box 0; point_box 1].

(** Two copies of a box that is unbounded along x. *)
Definition unbounded_boxes : list BoundingBox :=
  replicate 2 (mkBox (mkVec3d neg_infinity 0 0) (mkVec3d infinity 0 0)).

(** ** More ways to read the result *)

(** What [construct_recursively] leaves in a node that was not empty on
    entry: a leaf keeps the children the node had, an internal node keeps
    the identifiers it had. *)
Definition with_stale_fields (this_index : list Z)
    (this_children : list BoundingBoxTree) (t : BoundingBoxTree)
  : BoundingBoxTree :=
  match children t with
  | [] => Node (box t) (index t) this_children
  | _ => Node (box t) this_index (children t)
  end.

(** The number of leaves. *)
Fixpoint leaf_count (t : BoundingBoxTree) : nat :=
  match t with
  | Node _ _ [] => 1
  | Node _ _ cs => list_sum (map leaf_count cs)
  end.


(** ** Ownership: the nodes as objects in a store

    [children] holds raw owning pointers: [construct_recursively] allocates
    the children with [new], and [clear], which the destructor calls,
    releases them with [delete]. Here every live node is a cell of a store
    keyed by its address; [null] is the null pointer, which is never the
    address of a node. Using an address that is not live (a pointer to a
    deleted node) is undefined in the source and a [MemoryFault] here. *)

Abbreviation loc := nat.

Definition null : loc := 0.

Record cell : Type :=
  Cell { cell_box : BoundingBox; cell_index : list Z; cell_children : list loc }.

Abbreviation store := (gmap loc cell).

Inductive effect (A : Type) : Type :=
  | Finished (a : A)
  | AssertionStop
  | MemoryFault
  | FuelOut.
Arguments Finished {A} a.
Arguments AssertionStop {A}.
Arguments MemoryFault {A}.
Arguments FuelOut {A}.

Definition and_then {A B : Type} (m : effect A) (k : A → effect B) : effect B :=
  match m with
  | Finished a => k a
  | AssertionStop => AssertionStop
  | MemoryFault => MemoryFault
  | FuelOut => FuelOut
  end.

Notation "'exec' x <- m 'in' k" := (and_then m (fun x => k))
  (at level 10, x pattern, m at level 100, k at level 200).

Definition of_outcome {A : Type} (m : outcome A) : effect A :=
  match m with
  | Done a => Finished a
  | AssertionFailed => AssertionStop
  | OutOfFuel => FuelOut
  end.

(** An assignment to fields of the node at [this]. *)
Definition update (h : store) (this : loc) (f : cell → cell) : effect store :=
  match h !! this with
  | None => MemoryFault
  | Some c => Finished (<[this := f c]> h)
  end.

(** [delete child] for each child in turn, given what [delete] does. *)
Definition delete_all (delete_one : store → loc → effect store)
    (children : list loc) (h : store) : effect store :=
  fold_left (fun r child => exec h <- r in delete_one h child)
    children (Finished h).

(** Lines 34-40: [clear()], and with it the destructor (lines 30-32), which
    calls it. [delete] of a null pointer does nothing; of a node it runs the
    destructor and releases the node. *)
Fixpoint clear_at (fuel : nat) (h : store) (this : loc) : effect store :=
  match fuel with
  | 0 => FuelOut
  | S fuel' =>
      exec h <- update h this
        (fun c => Cell (cell_box c) [] (cell_children c)) in
      match h !! this with
      | None => MemoryFault
      | Some c =>
          exec h <-
            delete_all
              (fun h child =>
                 if child =? null then Finished h
                 else exec h <- clear_at fuel' h child in
                      Finished (delete child h))
              (cell_children c) h in
          update h this (fun c => Cell (cell_box c) (cell_index c) [])
      end
  end.

Section ConstructAt.
Variables (input_box : list BoundingBox).
Variables (max_depth boxes_per_leaf : nat).
Variables (centroid : list Vec3d).
(** The box of a default-constructed node ([bounding_box.h] is not among
    the sources); it is overwritten at line 79 before it is read. *)
Variable fresh_box : BoundingBox.

(** [new BoundingBoxTree]: a node at an address that is not in use, with no
    identifiers and no children. *)
Definition new_node (h : store) : loc * store :=
  let p := fresh (dom h ∪ {[null]}) in
  (p, <[p := Cell fresh_box [] []]> h).

(** [construct_recursively] on the node at [this], statement by statement. *)
Fixpoint construct_recursively_at (fuel : nat) (h : store) (this : loc)
    (current_depth num_indices : nat) (a : list nat) (off : nat)
  : effect (store * list nat) :=
  if negb (0 <? num_indices) then AssertionStop else
  match fuel with
  | 0 => FuelOut
  | S fuel' =>
    exec h <- update h this
      (fun c => Cell (slice_box input_box a off num_indices)
                  (cell_index c) (cell_children c)) in
    if (current_depth =? max_depth) || (num_indices <=? boxes_per_leaf) then
      exec h <- update h this
        (fun c => Cell (cell_box c) (slice_index a off num_indices)
                    (cell_children c)) in
      Finished (h, a)
    else if centroids_coincide centroid a off num_indices then
      exec h <- update h this
        (fun c => Cell (cell_box c) (slice_index a off num_indices)
                    (cell_children c)) in
      Finished (h, a)
    else
      exec (i, a1) <-
        of_outcome
          (partition centroid (slice_axis centroid a off num_indices)
             (slice_split centroid a off num_indices) off num_indices a) in
      if negb (uint_of_int i <? Z.of_nat num_indices)%Z then AssertionStop else
      let i := Z.to_nat i in
      exec h <- update h this
        (fun c => Cell (cell_box c) (cell_index c)
                    (resize 2 null (cell_children c))) in
      let (child0, h) := new_node h in
      exec h <- update h this
        (fun c => Cell (cell_box c) (cell_index c)
                    (<[0 := child0]> (cell_children c))) in
      exec (h, a2) <-
        construct_recursively_at fuel' h child0 (current_depth + 1) i a1 off in
      let (child1, h) := new_node h in
      exec h <- update h this
        (fun c => Cell (cell_box c) (cell_index c)
                    (<[1 := child1]> (cell_children c))) in
      exec (h, a3) <-
        construct_recursively_at fuel' h child1 (current_depth + 1)
          (num_indices - i) a2 (off + i) in
      Finished (h, a3)
  end.

End ConstructAt.

(** [construct_from_leaf_boxes] on the node at [this]. The destructors that
    [clear] runs recurse once per level of the old tree, which has no more
    levels than the store has cells. *)
Definition construct_from_leaf_boxes_at (fresh_box : BoundingBox)
    (h : store) (this : loc) (n : nat) (input_box : list BoundingBox)
    (max_depth boxes_per_leaf : nat) : effect store :=
  if negb ((1 <=? n) && (0 <? boxes_per_leaf)) then AssertionStop else
  exec h <- clear_at (S (size h)) h this in
  exec (h, _) <-
    construct_recursively_at input_box max_depth boxes_per_leaf
      (global_centroid n input_box) fresh_box n h this 0 n (seq 0 n) 0 in
  Finished h.

(** The store holds the tree [t] at the address [p], in the cells [L]: every
    node in a cell of its own, reached through its parent only. *)
Inductive shape : store → loc → BoundingBoxTree → gset loc → Prop :=
  | shape_node h p b idx cs ts Ls :
      p ≠ null → h !! p = Some (Cell b idx cs) →
      shapes h cs ts Ls → p ∉ Ls →
      shape h p (Node b idx ts) ({[p]} ∪ Ls)
with shapes : store → list loc → list BoundingBoxTree → gset loc → Prop :=
  | shapes_nil h : shapes h [] [] ∅
  | shapes_cons h c cs t ts L Ls :
      shape h c t L → shapes h cs ts Ls → L ## Ls →
      shapes h (c :: cs) (t :: ts) (L ∪ Ls).

Scheme shape_min := Minimality for shape Sort Prop
  with shapes_min := Minimality for shapes Sort Prop.

Combined Scheme shape_shapes_ind from shape_min, shapes_min.

(** A store in which node 1 owns a tree of two leaves, the nodes 2 and 3,
    and cell 5 belongs to something else. *)
Definition example_store : store :=
  {[ 1 := Cell (point_box 0) [] [2; 3];
     2 := Cell (point_box 0) [0%Z] [];
     3 := Cell (point_box 1) [1%Z] [];
     5 := Cell (point_box 7) [7%Z] [] ]}.

Definition example_store_tree : BoundingBoxTree :=
  Node (point_box 0) []
    [Node (point_box 0) [0%Z] []; Node (point_box 1) [1%Z] []].

Definition example_store_cells : gset loc :=
  {[1]} ∪ (({[2]} ∪ ∅) ∪ (({[3]} ∪ ∅) ∪ ∅)).

(** ** The order of binary64 values

    The comparisons of [float] are specified through [Prim2SF] and
    [SFcompare]. Every value that is not a NaN gets a rank, a triple ordered
    lexicographically, and the three comparisons are comparisons of ranks. *)

Definition rank3 : Type := Z * Z * Z.

Definition sf_rank (x : spec_float) : option rank3 :=
  match x with
  | S754_nan => None
  | S754_infinity true => Some (-2, 0, 0)%Z
  | S754_finite true m e => Some (-1, - e, Z.neg m)%Z
  | S754_zero _ => Some (0, 0, 0)%Z
  | S754_finite false m e => Some (1, e, Z.pos m)%Z
  | S754_infinity false => Some (2, 0, 0)%Z
  end.

Definition lt3 (r s : rank3) : bool :=
  let '(a, b, c) := r in
  let '(a', b', c') := s in
  ((a <? a') || ((a =? a') && ((b <? b') || ((b =? b') && (c <? c')))))%Z.

Definition eq3 (r s : rank3) : bool :=
  let '(a, b, c) := r in
  let '(a', b', c') := s in
  ((a =? a') && (b =? b') && (c =? c'))%Z.

Definition rank (x : float) : option rank3 := sf_rank (Prim2SF x).

Definition rank_rel (f : rank3 → rank3 → bool) (x y : float) : bool :=
  match rank x, rank y with
  | Some r, Some s => f r s
  | _, _ => false
  end.

(** * Properties *)

(** ** Binary64 comparisons *)

Lemma SFcompare_rank x y :
  SFcompare x y =
  match sf_rank x, sf_rank y with
  | Some r, Some s =>
      Some (if lt3 r s then Lt else if eq3 r s then Eq else Gt)
  | _, _ => None
  end.
Proof.
  destruct x as [[]|[]| |[] mx ex], y as [[]|[]| |[] my ey]; try reflexivity;
    cbn [SFcompare sf_rank]; f_equal; unfold lt3, eq3;
    try change (Pos.compare_cont Eq mx my) with (Pos.compare mx my);
    destruct (Z.compare_spec ex ey), (Pos.compare_spec mx my); cbn [CompOpp];
    repeat match goal with |- context [if ?b then _ else _] => destruct b eqn:? end;
    try reflexivity; lia.
Qed.

Lemma ltb_rank x y : (x <? y)%float = rank_rel lt3 x y.
Proof.
  rewrite FloatAxioms.ltb_spec. unfold SFltb, rank_rel, rank. rewrite SFcompare_rank.
  destruct (sf_rank (Prim2SF x)) as [r|], (sf_rank (Prim2SF y)) as [s|]; try reflexivity.
  destruct (lt3 r s); [reflexivity|]. destruct (eq3 r s); reflexivity.
Qed.

Lemma leb_rank x y :
  (x <=? y)%float = rank_rel (fun r s => lt3 r s || eq3 r s) x y.
Proof.
  rewrite FloatAxioms.leb_spec. unfold SFleb, rank_rel, rank. rewrite SFcompare_rank.
  destruct (sf_rank (Prim2SF x)) as [r|], (sf_rank (Prim2SF y)) as [s|]; try reflexivity.
  destruct (lt3 r s); [reflexivity|]. destruct (eq3 r s); reflexivity.
Qed.

Lemma eqb_rank x y : (x =? y)%float = rank_rel eq3 x y.
Proof.
  rewrite FloatAxioms.eqb_spec. unfold SFeqb, rank_rel, rank. rewrite SFcompare_rank.
  destruct (sf_rank (Prim2SF x)) as [[[a b] c]|], (sf_rank (Prim2SF y)) as [[[a' b'] c']|];
    try reflexivity.
  unfold lt3, eq3.
  repeat match goal with |- context [if ?b then _ else _] => destruct b eqn:? end;
    try reflexivity; lia.
Qed.

Lemma is_nan_rank x :
  is_nan x = match rank x with Some _ => false | None => true end.
Proof.
  unfold is_nan. rewrite eqb_rank. unfold rank_rel.
  destruct (rank x) as [[[a b] c]|]; [|reflexivity].
  unfold eq3. lia.
Qed.

Lemma is_finite_rank x :
  is_finite x =
  match rank x with
  | Some (c, _, _) => (-1 <=? c)%Z && (c <=? 1)%Z
  | None => false
  end.
Proof.
  unfold is_finite, is_infinity. rewrite is_nan_rank, eqb_rank.
  unfold rank_rel, rank. rewrite FloatAxioms.abs_spec.
  change (Prim2SF infinity) with (S754_infinity false).
  destruct (Prim2SF x) as [[]|[]| |[] m e]; reflexivity.
Qed.

Ltac float_order :=
  rewrite ?is_finite_rank, ?is_nan_rank, ?ltb_rank, ?leb_rank, ?eqb_rank in *;
  unfold rank_rel in *;
  repeat match goal with
    | H : context [rank ?x] |- _ => destruct (rank x) as [[[? ?] ?]|]
    | |- context [rank ?x] => destruct (rank x) as [[[? ?] ?]|]
    end;
  unfold lt3, eq3 in *; try lia; try congruence.

Lemma ltb_irrefl x : (x <? x)%float = false.
Proof. float_order. Qed.
Lemma leb_not_gt x y : (x <=? y)%float = true → (y <? x)%float = false.
Proof. intros. float_order. Qed.
Lemma ltb_trans x y z : (x <? y)%float = true → (y <? z)%float = true → (x <? z)%float = true.
Proof. intros. float_order. Qed.
Lemma leb_total x y : is_nan x = false → is_nan y = false → (x <=? y)%float = false → (y <? x)%float = true.
Proof. intros. float_order. Qed.

Lemma shr_1_nonneg mrs : (0 <= shr_m mrs)%Z → (0 <= shr_m (shr_1 mrs))%Z.
Proof. destruct mrs as [[|[p|p|]|p] r s]; cbn; lia. Qed.

Lemma iter_pos_shr_1_nonneg p mrs :
  (0 <= shr_m mrs)%Z → (0 <= shr_m (SpecFloat.iter_pos shr_1 p mrs))%Z.
Proof.
  revert mrs. induction p as [p IH|p IH|]; intros mrs H; cbn [SpecFloat.iter_pos].
  - apply IH, IH, shr_1_nonneg, H.
  - apply IH, IH, H.
  - apply shr_1_nonneg, H.
Qed.

Lemma shr_fexp_nonneg prec emax m e l :
  (0 <= m)%Z → (0 <= shr_m (fst (shr_fexp prec emax m e l)))%Z.
Proof.
  intros H. unfold shr_fexp, shr.
  assert (0 <= shr_m (shr_record_of_loc m l))%Z as H'.
  { destruct l as [|[]]; exact H. }
  destruct (_ - e)%Z; cbn [fst]; auto using iter_pos_shr_1_nonneg.
Qed.

Lemma round_nearest_even_nonneg m l :
  (0 <= m)%Z → (0 <= round_nearest_even m l)%Z.
Proof.
  intros H. destruct l as [|[]]; cbn; try lia. destruct (Z.even m); lia.
Qed.

Lemma binary_round_aux_not_nan prec emax sx mx ex lx :
  (0 <= mx)%Z → binary_round_aux prec emax sx mx ex lx ≠ S754_nan.
Proof.
  intros H. unfold binary_round_aux.
  pose proof (shr_fexp_nonneg prec emax mx ex lx H) as H1.
  destruct (shr_fexp prec emax mx ex lx) as [mrs' e']. cbn [fst] in H1.
  pose proof (shr_fexp_nonneg prec emax _ e' loc_Exact
                (round_nearest_even_nonneg _ (loc_of_shr_record mrs') H1)) as H2.
  destruct (shr_fexp prec emax _ e' loc_Exact) as [mrs'' e'']. cbn [fst] in H2.
  destruct (shr_m mrs''); [discriminate| |lia].
  destruct (_ <=? _)%Z; discriminate.
Qed.

Lemma binary_normalize_not_nan prec emax m e s :
  binary_normalize prec emax m e s ≠ S754_nan.
Proof.
  destruct m; cbn [binary_normalize]; [discriminate| |];
    unfold binary_round; destruct (shl_align _ _ _);
    apply binary_round_aux_not_nan; lia.
Qed.

Lemma add_finite_not_nan x y :
  is_finite x = true → is_finite y = true → is_nan (x + y) = false.
Proof.
  rewrite !is_finite_rank, is_nan_rank. unfold rank. rewrite FloatAxioms.add_spec.
  intros Hx Hy.
  destruct (Prim2SF x) as [[]|[]| |sx mx ex], (Prim2SF y) as [[]|[]| |sy my ey];
    try discriminate; try reflexivity; try (destruct sx; reflexivity);
    try (destruct sy; reflexivity).
  unfold SF64add, SFadd.
  match goal with |- context [binary_normalize ?p ?q ?m ?e ?s] =>
    pose proof (binary_normalize_not_nan p q m e s) as Hn;
    destruct (binary_normalize p q m e s) as [[]|[]| |[] ? ?] end;
    try reflexivity; congruence.
Qed.

Lemma half_not_nan x : is_nan x = false → is_nan (0.5 * x) = false.
Proof.
  rewrite !is_nan_rank. unfold rank. rewrite FloatAxioms.mul_spec.
  change (Prim2SF 0.5) with (S754_finite false 4503599627370496 (-53)).
  intros Hx.
  destruct (Prim2SF x) as [[]|[]| |sx mx ex]; try discriminate; try reflexivity.
  unfold SF64mul, SFmul.
  match goal with |- context [binary_round_aux ?p ?q ?s ?m ?e ?l] =>
    pose proof (binary_round_aux_not_nan p q s m e l ltac:(lia)) as Hn;
    destruct (binary_round_aux p q s m e l) as [[]|[]| |[] ? ?] end;
    try reflexivity; congruence.
Qed.

(** ** Machine integers in range *)

Lemma int_of_uint_small u : (u <= INT_MAX)%Z → int_of_uint u = u.
Proof. unfold int_of_uint. intros H. destruct (u <=? INT_MAX)%Z eqn:E; lia. Qed.

Lemma uint_of_int_small i : (0 <= i <= INT_MAX)%Z → uint_of_int i = i.
Proof. unfold uint_of_int, UINT_MOD, INT_MAX. intros H. apply Z.mod_small. lia. Qed.

(** ** Outcomes *)

Lemma bind_Done {A B} (m : outcome A) (k : A → outcome B) b :
  bind m k = Done b → ∃ a, m = Done a ∧ k a = Done b.
Proof. destruct m; cbn; [eauto|discriminate..]. Qed.

Lemma assert_Done {A} c (k : outcome A) a :
  assert c k = Done a → c = true ∧ k = Done a.
Proof. destruct c; cbn; [auto|discriminate]. Qed.

(** ** The permutation array *)

Lemma local_lookup (a : list nat) off k :
  off + k < length a → a !! (off + k) = Some (local a off k).
Proof. intros H. unfold local. by apply list_lookup_lookup_total_lt. Qed.

Lemma insert_swap_head (l : list nat) j x y :
  l !! j = Some y → y :: <[j:=x]> l ≡ₚ x :: l.
Proof.
  revert j. induction l as [|h l IH]; intros [|j] H; try discriminate.
  - cbn in *. injection H as ->. apply perm_swap.
  - cbn in *. rewrite (perm_swap h y), (IH _ H). apply perm_swap.
Qed.

Lemma insert_swap_perm (l : list nat) i j x y :
  i < j → l !! i = Some x → l !! j = Some y →
  <[i:=y]> (<[j:=x]> l) ≡ₚ l.
Proof.
  revert i j. induction l as [|h l IH]; intros [|i] [|j] Hij Hi Hj;
    try discriminate; try lia; cbn in *.
  - injection Hi as ->. by apply insert_swap_head.
  - apply perm_skip, (IH i j); [lia|done..].
Qed.

Lemma swap_perm a off i j :
  (0 <= i < j)%Z → off + Z.to_nat j < length a → swap a off i j ≡ₚ a.
Proof.
  intros Hij Hj. unfold swap.
  apply insert_swap_perm; [lia|apply local_lookup; lia..].
Qed.

Lemma swap_length a off i j : length (swap a off i j) = length a.
Proof. unfold swap. by rewrite !length_insert. Qed.

Lemma swap_lookup_ne a off i j k :
  k ≠ off + Z.to_nat i → k ≠ off + Z.to_nat j → swap a off i j !! k = a !! k.
Proof. intros Hi Hj. unfold swap. by rewrite !list_lookup_insert_ne. Qed.

Lemma local_swap a off i j k :
  (0 <= i < j)%Z → off + Z.to_nat j < length a →
  local (swap a off i j) off k =
  if decide (k = Z.to_nat i) then local a off (Z.to_nat j)
  else if decide (k = Z.to_nat j) then local a off (Z.to_nat i)
  else local a off k.
Proof.
  intros Hij Hj. unfold swap, local at 1.
  destruct (decide (k = Z.to_nat i)) as [->|Hi].
  - rewrite list_lookup_total_insert_eq; [done|]. rewrite length_insert. lia.
  - rewrite list_lookup_total_insert_ne by lia.
    destruct (decide (k = Z.to_nat j)) as [->|Hj'].
    + rewrite list_lookup_total_insert_eq; [done|lia].
    + by rewrite list_lookup_total_insert_ne by lia.
Qed.

(** ** The partition (lines 119-133) *)

Section PartitionFacts.
Variables (centroid : list Vec3d) (axis : nat) (split : float).
Variables (off N : nat).
Hypothesis HN : (Z.of_nat N <= INT_MAX)%Z.

Local Abbreviation key_at := (key centroid axis off).
Local Abbreviation up := (scan_up centroid axis split off N).
Local Abbreviation down := (scan_down centroid axis split off).
Local Abbreviation loop := (partition_loop centroid axis split off N).
Local Abbreviation Nz := (Z.of_nat N).

Lemma scan_up_spec fuel a i i' :
  up fuel a i = Done i' → (0 <= i <= Nz)%Z →
  (i <= i' <= Nz)%Z
  ∧ (∀ k, (i <= k < i')%Z → (key_at a k <=? split)%float = true)
  ∧ ((i' < Nz)%Z → (key_at a i' <=? split)%float = false).
Proof.
  revert i. induction fuel as [|fuel IH]; intros i H Hi; [discriminate|].
  cbn in H. rewrite uint_of_int_small in H by lia.
  destruct (i <? Nz)%Z eqn:HiN; cbn [andb] in H.
  - destruct (key_at a i <=? split)%float eqn:Hk.
    + destruct (IH _ H ltac:(lia)) as (? & Hle & Hex).
      split; [lia|]. split; [|done].
      intros k Hk'. destruct (decide (k = i)) as [->|]; [done|].
      apply Hle. lia.
    + injection H as <-. split; [lia|]. split; [|done]. intros; lia.
  - injection H as <-. split; [lia|]. split; intros; lia.
Qed.

Lemma scan_up_total fuel a i :
  (0 <= i <= Nz)%Z → Z.to_nat (Nz - i) < fuel → ∃ i', up fuel a i = Done i'.
Proof.
  revert i. induction fuel as [|fuel IH]; intros i Hi Hf; [lia|].
  cbn. rewrite uint_of_int_small by lia.
  destruct ((i <? Nz)%Z && (key_at a i <=? split)%float) eqn:E; [|eauto].
  apply IH; lia.
Qed.

Lemma scan_down_spec fuel a j j' :
  down fuel a j = Done j' → (-1 <= j)%Z →
  (-1 <= j' <= j)%Z
  ∧ (∀ k, (j' < k <= j)%Z → (split <? key_at a k)%float = true)
  ∧ ((0 <= j')%Z → (split <? key_at a j')%float = false).
Proof.
  revert j. induction fuel as [|fuel IH]; intros j H Hj; [discriminate|].
  cbn in H.
  destruct (0 <=? j)%Z eqn:Hj0; cbn [andb] in H.
  - destruct (split <? key_at a j)%float eqn:Hk.
    + destruct (IH _ H ltac:(lia)) as (? & Hgt & Hex).
      split; [lia|]. split; [|done].
      intros k Hk'. destruct (decide (k = j)) as [->|]; [done|].
      apply Hgt. lia.
    + injection H as <-. split; [lia|]. split; [|done]. intros; lia.
  - injection H as <-. split; [lia|]. split; intros; lia.
Qed.

Lemma scan_down_total fuel a j :
  (-1 <= j)%Z → Z.to_nat (j + 1) < fuel → ∃ j', down fuel a j = Done j'.
Proof.
  revert j. induction fuel as [|fuel IH]; intros j Hj Hf; [lia|].
  cbn. destruct ((0 <=? j)%Z && (split <? key_at a j)%float) eqn:E; [|eauto].
  apply IH; lia.
Qed.

Lemma key_swap a i j k :
  (0 <= i < j)%Z → off + Z.to_nat j < length a → (0 <= k)%Z →
  key_at (swap a off i j) k =
  if decide (k = i) then key_at a j else if decide (k = j) then key_at a i else key_at a k.
Proof.
  intros Hij Hj Hk. unfold key. rewrite local_swap by done.
  repeat case_decide; try done; lia.
Qed.

(** What the loop guarantees when it stops at [i']: nothing left of [i']
    is greater than [split], nothing from [i'] on is at most [split]. The
    array is permuted inside the slice only. *)
Lemma partition_loop_spec fuel a i j i' a' :
  loop fuel a i j = Done (i', a') →
  off + N ≤ length a → (0 <= i <= Nz)%Z → (-1 <= j < Nz)%Z →
  (∀ k, (0 <= k < i)%Z → (split <? key_at a k)%float = false) →
  (∀ k, (j < k < Nz)%Z → (key_at a k <=? split)%float = false) →
  (i <= i' <= Nz)%Z
  ∧ a' ≡ₚ a
  ∧ length a' = length a
  ∧ (∀ k, k < off ∨ off + N ≤ k → a' !! k = a !! k)
  ∧ (∀ k, (0 <= k < i')%Z → (split <? key_at a' k)%float = false)
  ∧ (∀ k, (i' <= k < Nz)%Z → (key_at a' k <=? split)%float = false).
Proof.
  revert a i j. induction fuel as [|fuel IH]; intros a i j H Hlen Hi Hj Hlo Hhi;
    [discriminate|].
  cbn [partition_loop] in H.
  apply bind_Done in H as (i1 & Hup & H).
  apply bind_Done in H as (j1 & Hdown & H).
  destruct (scan_up_spec _ _ _ _ Hup Hi) as (Hi1 & Hle & Hupx).
  destruct (scan_down_spec _ _ _ _ Hdown ltac:(lia)) as (Hj1 & Hgt & Hdownx).
  assert (∀ k, (0 <= k < i1)%Z → (split <? key_at a k)%float = false) as Hlo1.
  { intros k Hk. destruct (decide (k < i)%Z); [apply Hlo; lia|].
    apply leb_not_gt, Hle. lia. }
  assert (∀ k, (j1 < k < Nz)%Z → (key_at a k <=? split)%float = false) as Hhi1.
  { intros k Hk. destruct (decide (j < k)%Z); [apply Hhi; lia|].
    destruct (key_at a k <=? split)%float eqn:E; [|done].
    apply leb_not_gt in E. rewrite Hgt in E; [done|lia]. }
  destruct (i1 <? j1)%Z eqn:Hij.
  - apply IH in H; rewrite ?swap_length; try lia.
    + destruct H as (? & Hp & Hl & Hfr & Hlo' & Hhi').
      split; [lia|]. split; [rewrite Hp; apply swap_perm; lia|].
      split; [by rewrite Hl, swap_length|]. split; [|done].
      intros k Hk. rewrite Hfr by done. apply swap_lookup_ne; lia.
    + intros k Hk. rewrite key_swap by lia.
      destruct (decide (k = i1)); [apply Hdownx; lia|].
      destruct (decide (k = j1)); [lia|]. apply Hlo1. lia.
    + intros k Hk. rewrite key_swap by lia.
      destruct (decide (k = i1)); [lia|].
      destruct (decide (k = j1)); [apply Hupx; lia|]. apply Hhi1. lia.
  - injection H as <- <-. split; [lia|]. do 3 (split; [done|]).
    split; [done|].
    intros k Hk. destruct (decide (j1 < k)%Z); [apply Hhi1; lia|].
    assert (k = i1) as -> by lia. apply Hupx. lia.
Qed.

Lemma partition_loop_total fuel a i j :
  (0 <= i <= Nz)%Z → (-1 <= j < Nz)%Z → Z.to_nat (j - i + 1) < fuel →
  ∃ r, loop fuel a i j = Done r.
Proof.
  revert a i j. induction fuel as [|fuel IH]; intros a i j Hi Hj Hf; [lia|].
  cbn [partition_loop].
  destruct (scan_up_total (S N) a i Hi ltac:(lia)) as [i1 Hup].
  destruct (scan_down_total (S N) a j ltac:(lia) ltac:(lia)) as [j1 Hdown].
  rewrite Hup, Hdown. cbn [bind].
  destruct (scan_up_spec _ _ _ _ Hup Hi) as (Hi1 & _).
  destruct (scan_down_spec _ _ _ _ Hdown ltac:(lia)) as (Hj1 & _).
  destruct (i1 <? j1)%Z eqn:Hij; [|eauto].
  apply IH; lia.
Qed.

Lemma partition_spec a i a' :
  partition centroid axis split off N a = Done (i, a') →
  0 < N → off + N ≤ length a →
  (0 <= i <= Nz)%Z
  ∧ a' ≡ₚ a
  ∧ length a' = length a
  ∧ (∀ k, k < off ∨ off + N ≤ k → a' !! k = a !! k)
  ∧ (∀ k, (0 <= k < i)%Z → (split <? key_at a' k)%float = false)
  ∧ (∀ k, (i <= k < Nz)%Z → (key_at a' k <=? split)%float = false).
Proof.
  unfold partition. rewrite int_of_uint_small by lia. intros H HN0 Hlen.
  apply partition_loop_spec in H; [|done|lia|lia|intros; lia..].
  destruct H as (? & ? & ? & ? & ? & ?). repeat split; (done || lia).
Qed.

Lemma partition_total a :
  0 < N → ∃ r, partition centroid axis split off N a = Done r.
Proof.
  intros HN0. unfold partition. rewrite int_of_uint_small by lia.
  apply partition_loop_total; lia.
Qed.
End PartitionFacts.

(** ** Slices of the permutation array *)

Lemma slice_length a off N : length (slice a off N) = N.
Proof. unfold slice. by rewrite length_map, length_seq. Qed.

Lemma slice_app a off i m :
  slice a off (i + m) = slice a off i ++ slice a (off + i) m.
Proof.
  unfold slice. rewrite seq_app, map_app. f_equal.
  replace (0 + i) with (i + 0) by lia. rewrite <- fmap_add_seq.
  rewrite <- list_fmap_compose. apply list_fmap_ext. intros _ k _.
  cbn. unfold local. f_equal. lia.
Qed.

Lemma slice_ext a a' off N :
  (∀ k, k < N → a' !! (off + k) = a !! (off + k)) →
  slice a' off N = slice a off N.
Proof.
  intros H. unfold slice. apply map_ext_in. intros k Hk%in_seq.
  unfold local. rewrite !list_lookup_total_alt, H by lia. done.
Qed.

Lemma slice_lookup a off N k :
  k < N → slice a off N !! k = Some (local a off k).
Proof.
  intros Hk. unfold slice. rewrite list_lookup_fmap, lookup_seq_lt by done. done.
Qed.

Lemma slice_take_drop a off N :
  off + N ≤ length a → slice a off N = take N (drop off a).
Proof.
  intros H. apply list_eq. intros k.
  destruct (decide (k < N)) as [Hk|Hk].
  - rewrite slice_lookup, lookup_take_lt, lookup_drop by done.
    symmetry. apply local_lookup. lia.
  - rewrite lookup_take_ge by lia. apply lookup_ge_None.
    rewrite slice_length. lia.
Qed.

Lemma slice_whole a : slice a 0 (length a) = a.
Proof. rewrite slice_take_drop by lia. cbn. apply firstn_all. Qed.

Lemma frame_take (a a' : list nat) off N :
  length a' = length a →
  (∀ k, k < off ∨ off + N ≤ k → a' !! k = a !! k) →
  take off a' = take off a ∧ drop (off + N) a' = drop (off + N) a.
Proof.
  intros Hl H. split; apply list_eq; intros k.
  - destruct (decide (k < off)).
    + rewrite !lookup_take_lt by done. apply H. lia.
    + by rewrite !lookup_take_ge by lia.
  - rewrite !lookup_drop. apply H. lia.
Qed.

Lemma slice_perm a a' off N :
  off + N ≤ length a → a' ≡ₚ a → length a' = length a →
  (∀ k, k < off ∨ off + N ≤ k → a' !! k = a !! k) →
  slice a' off N ≡ₚ slice a off N.
Proof.
  intros Hlen Hp Hl Hfr.
  destruct (frame_take a a' off N Hl Hfr) as [Ht Hd].
  rewrite !slice_take_drop by lia.
  rewrite <- (take_drop off a), <- (take_drop off a'), Ht in Hp.
  apply Permutation_app_inv_l in Hp.
  rewrite <- (take_drop N (drop off a)), <- (take_drop N (drop off a')) in Hp.
  rewrite !drop_drop, Hd in Hp.
  by apply Permutation_app_inv_r in Hp.
Qed.


(** ** The recursion *)

Section ConstructFacts.
Variables (input_box : list BoundingBox) (max_depth boxes_per_leaf : nat).
Variables (centroid : list Vec3d).

Local Abbreviation build :=
  (construct_recursively input_box max_depth boxes_per_leaf centroid).

(** A successful call was either a leaf (lines 84-88 and 99-103) or a split
    followed by two successful calls (lines 104-148). *)
Lemma construct_recursively_inv fuel ti tc d N a off t a' :
  build fuel ti tc d N a off = Done (t, a') →
  0 < N
  ∧ (((d = max_depth ∨ N ≤ boxes_per_leaf
       ∨ centroids_coincide centroid a off N = true)
      ∧ t = Node (slice_box input_box a off N) (slice_index a off N) tc
      ∧ a' = a)
     ∨ (d ≠ max_depth ∧ boxes_per_leaf < N
        ∧ centroids_coincide centroid a off N = false
        ∧ ∃ fuel' i a1 c0 a2 c1,
            fuel = S fuel'
            ∧ partition centroid (slice_axis centroid a off N)
                (slice_split centroid a off N) off N a = Done (i, a1)
            ∧ (uint_of_int i < Z.of_nat N)%Z
            ∧ build fuel' [] [] (d + 1) (Z.to_nat i) a1 off = Done (c0, a2)
            ∧ build fuel' [] [] (d + 1) (N - Z.to_nat i) a2 (off + Z.to_nat i)
              = Done (c1, a')
            ∧ t = Node (slice_box input_box a off N) ti [c0; c1])).
Proof.
  intros H. destruct fuel as [|fuel'].
  { cbn in H. apply assert_Done in H as [_ H]. discriminate. }
  cbn [construct_recursively] in H.
  apply assert_Done in H as [HN H]. split; [lia|].
  destruct ((d =? max_depth) || (N <=? boxes_per_leaf)) eqn:Hbase.
  { injection H as <- <-. left. split; [lia|done]. }
  fold (centroids_coincide centroid a off N) in H.
  destruct (centroids_coincide centroid a off N) eqn:Hco.
  { injection H as <- <-. left. split; [auto|done]. }
  fold (slice_axis centroid a off N) in H.
  fold (slice_split centroid a off N) in H.
  apply bind_Done in H as ([i a1] & Hpart & H).
  apply assert_Done in H as [Hi H].
  apply bind_Done in H as ([c0 a2] & H0 & H).
  apply bind_Done in H as ([c1 a3] & H1 & H).
  injection H as <- <-. right.
  split; [lia|]. split; [lia|]. split; [done|].
  exists fuel', i, a1, c0, a2, c1. repeat split; (done || lia).
Qed.

(** The call permutes the array inside its own slice and nowhere else. *)
Lemma construct_recursively_frame fuel ti tc d N a off t a' :
  build fuel ti tc d N a off = Done (t, a') →
  (Z.of_nat N <= INT_MAX)%Z → off + N ≤ length a →
  a' ≡ₚ a ∧ length a' = length a
  ∧ (∀ k, k < off ∨ off + N ≤ k → a' !! k = a !! k).
Proof.
  revert ti tc d N a off t a'.
  induction fuel as [|fuel IH]; intros ti tc d N a off t a' H HN Hlen;
    apply construct_recursively_inv in H as [HN0 H].
  { destruct H as [(_ & _ & ->)|(_ & _ & _ & ? & ? & ? & ? & ? & ? & ? & _)];
      [done|discriminate]. }
  destruct H as [(_ & _ & ->)|(_ & _ & _ & f & i & a1 & c0 & a2 & c1 & Hf & Hp & Hi & H0 & H1 & _)];
    [done|].
  injection Hf as <-.
  apply partition_spec in Hp as (Hi' & Hp1 & Hl1 & Hfr1 & _); [|done..].
  rewrite uint_of_int_small in Hi by lia.
  apply IH in H0 as (Hp2 & Hl2 & Hfr2); [|lia..].
  apply IH in H1 as (Hp3 & Hl3 & Hfr3); [|lia..].
  split; [by rewrite Hp3, Hp2|]. split; [lia|].
  intros k Hk. rewrite Hfr3, Hfr2, Hfr1 by lia. done.
Qed.

Lemma slice_index_slice a off N :
  slice_index a off N = (λ k, int_of_uint (Z.of_nat k)) <$> slice a off N.
Proof. unfold slice_index, slice. by rewrite map_map. Qed.

(** Read left to right, the leaves hold the final content of the slice. *)
Lemma construct_recursively_leaves fuel ti d N a off t a' :
  build fuel ti [] d N a off = Done (t, a') →
  (Z.of_nat N <= INT_MAX)%Z → off + N ≤ length a →
  leaf_indices t = slice_index a' off N.
Proof.
  revert ti d N a off t a'.
  induction fuel as [|fuel IH]; intros ti d N a off t a' H HN Hlen;
    apply construct_recursively_inv in H as [HN0 H].
  { destruct H as [(_ & -> & ->)|(_ & _ & _ & ? & ? & ? & ? & ? & ? & ? & _)];
      [done|discriminate]. }
  destruct H as [(_ & -> & ->)|(_ & _ & _ & f & i & a1 & c0 & a2 & c1 & Hf & Hp & Hi & H0 & H1 & ->)];
    [done|].
  injection Hf as <-.
  apply partition_spec in Hp as (Hi' & Hp1 & Hl1 & Hfr1 & _); [|done..].
  rewrite uint_of_int_small in Hi by lia.
  pose proof (construct_recursively_frame _ _ _ _ _ _ _ _ _ H0 ltac:(lia) ltac:(lia))
    as (Hp2 & Hl2 & Hfr2).
  pose proof (construct_recursively_frame _ _ _ _ _ _ _ _ _ H1 ltac:(lia) ltac:(lia))
    as (Hp3 & Hl3 & Hfr3).
  apply IH in H0; [|lia..]. apply IH in H1; [|lia..].
  cbn [leaf_indices flat_map]. rewrite H0, H1, app_nil_r.
  rewrite !slice_index_slice.
  assert (slice a' off N = slice a' off (Z.to_nat i)
            ++ slice a' (off + Z.to_nat i) (N - Z.to_nat i)) as ->.
  { rewrite <- slice_app. f_equal. lia. }
  rewrite fmap_app. f_equal. f_equal.
  symmetry. apply slice_ext. intros k Hk. apply Hfr3. lia.
Qed.
End ConstructFacts.


(** ** Trees *)

(** Induction on trees, with the hypothesis on every child. *)
Lemma BoundingBoxTree_ind' (P : BoundingBoxTree → Prop) :
  (∀ b idx cs, Forall P cs → P (Node b idx cs)) → ∀ t, P t.
Proof.
  intros H. fix IH 1. intros [b idx cs]. apply H.
  induction cs as [|c cs IHcs]; constructor; [apply IH|apply IHcs].
Qed.

Lemma nodes_have_a_depth d t s : s ∈ nodes t → ∃ d', (d', s) ∈ nodes_from d t.
Proof.
  revert d. induction t as [b idx cs IH] using BoundingBoxTree_ind'.
  intros d. cbn [nodes nodes_from]. rewrite elem_of_cons.
  intros [->|Hs]; [exists d; apply list_elem_of_here|].
  apply list_elem_of_In, in_flat_map in Hs as (c & Hc & Hs).
  apply list_elem_of_In in Hc, Hs.
  rewrite Forall_forall in IH.
  destruct (IH c Hc (S d) Hs) as [d' Hd'].
  exists d'. apply list_elem_of_further, list_elem_of_In, in_flat_map.
  exists c. split; by apply list_elem_of_In.
Qed.

Lemma nodes_pair b idx c0 c1 :
  nodes (Node b idx [c0; c1]) = Node b idx [c0; c1] :: nodes c0 ++ nodes c1.
Proof. cbn. by rewrite app_nil_r. Qed.

Lemma nodes_root t : t ∈ nodes t.
Proof. destruct t. apply list_elem_of_here. Qed.

(** ** Properties of every node *)

Lemma nodes_from_pair d b idx c0 c1 :
  nodes_from d (Node b idx [c0; c1]) =
  (d, Node b idx [c0; c1]) :: nodes_from (S d) c0 ++ nodes_from (S d) c1.
Proof. cbn. by rewrite app_nil_r. Qed.

Section NodeInduction.
Variables (input_box : list BoundingBox) (max_depth boxes_per_leaf : nat).
Variables (centroid : list Vec3d) (a0 : list nat).
Variable P : nat → BoundingBoxTree → Prop.

Hypothesis P_leaf : ∀ d N a off,
  d ≤ max_depth → 0 < N → a ≡ₚ a0 → off + N ≤ length a →
  d = max_depth ∨ N ≤ boxes_per_leaf ∨ centroids_coincide centroid a off N = true →
  P d (Node (slice_box input_box a off N) (slice_index a off N) []).

Hypothesis P_split : ∀ d N a off c0 c1,
  d < max_depth → boxes_per_leaf < N →
  P d (Node (slice_box input_box a off N) [] [c0; c1]).

(** A property that holds of the leaves and of the internal nodes as the
    recursion makes them holds of every node of the result. *)
Lemma construct_recursively_nodes fuel d N a off t a' :
  construct_recursively input_box max_depth boxes_per_leaf centroid
    fuel [] [] d N a off = Done (t, a') →
  a ≡ₚ a0 → (Z.of_nat N <= INT_MAX)%Z → off + N ≤ length a → d ≤ max_depth →
  ∀ d' s, (d', s) ∈ nodes_from d t → P d' s.
Proof.
  revert d N a off t a'.
  induction fuel as [|fuel IH]; intros d N a off t a' H Ha HN Hlen Hd;
    apply construct_recursively_inv in H as [HN0 H].
  { destruct H as [(Hc & -> & ->)|(_ & _ & _ & ? & ? & ? & ? & ? & ? & ? & _)];
      [|discriminate].
    intros d' s [= -> ->]%list_elem_of_singleton. by apply P_leaf. }
  destruct H as [(Hc & -> & ->)|(Hd' & Hb & _ & f & i & a1 & c0 & a2 & c1 & Hf & Hp & Hi & H0 & H1 & ->)].
  { intros d' s [= -> ->]%list_elem_of_singleton. by apply P_leaf. }
  injection Hf as <-.
  apply partition_spec in Hp as (Hi' & Hp1 & Hl1 & Hfr1 & _); [|done..].
  rewrite uint_of_int_small in Hi by lia.
  pose proof (construct_recursively_frame _ _ _ _ _ _ _ _ _ _ _ _ _ H0 ltac:(lia) ltac:(lia))
    as (Hp2 & Hl2 & Hfr2).
  rewrite Nat.add_1_r in H0, H1.
  intros d' s. rewrite nodes_from_pair, elem_of_cons, elem_of_app.
  intros [[= -> ->]|[Hs|Hs]].
  - apply P_split; lia.
  - eapply (IH _ _ _ _ _ _ H0); [by rewrite Hp1|lia..|done].
  - eapply (IH _ _ _ _ _ _ H1); [by rewrite Hp2, Hp1|lia..|done].
Qed.
End NodeInduction.

(** ** The entry point *)

Lemma construct_from_leaf_boxes_inv this n input_box max_depth boxes_per_leaf t :
  construct_from_leaf_boxes this n input_box max_depth boxes_per_leaf = Done t →
  1 ≤ n ∧ 1 ≤ boxes_per_leaf
  ∧ ∃ a', construct_recursively input_box max_depth boxes_per_leaf
            (global_centroid n input_box) n [] [] 0 n (seq 0 n) 0 = Done (t, a').
Proof.
  unfold construct_from_leaf_boxes. intros H.
  apply assert_Done in H as [Hn H]. cbn [clear index children] in H.
  apply bind_Done in H as ([t' a'] & H & [= ->]).
  split; [lia|]. split; [lia|]. eauto.
Qed.

(** C7. Every node of a constructed tree has no child or exactly two
    children; no node has a single child. *)
Theorem every_node_has_zero_or_two_children
    this n input_box max_depth boxes_per_leaf t :
  (Z.of_nat n <= INT_MAX)%Z →
  construct_from_leaf_boxes this n input_box max_depth boxes_per_leaf = Done t →
  ∀ s, s ∈ nodes t → binary_shape s.
Proof.
  intros Hn (_ & _ & a' & H)%construct_from_leaf_boxes_inv s Hs.
  apply (nodes_have_a_depth 0) in Hs as [d Hs]. revert d s Hs.
  eapply (construct_recursively_nodes _ _ _ _ (seq 0 n) (λ _ s, binary_shape s));
    [| |exact H|done|done|rewrite length_seq; lia|lia].
  - intros. by left.
  - intros. by right.
Qed.

Lemma every_node_has_zero_or_two_children_witness :
  ∃ t, construct_from_leaf_boxes empty_tree 4 example_boxes 30 1 = Done t
       ∧ ∀ s, s ∈ nodes t → binary_shape s.
Proof.
  eexists. split; [vm_compute; reflexivity|].
  apply (every_node_has_zero_or_two_children empty_tree 4 example_boxes 30 1);
    [vm_compute; discriminate|vm_compute; reflexivity].
Defined.

(** C10. In a constructed tree every leaf holds at least one identifier and
    every internal node holds none: no node carries both children and
    identifiers. *)
Theorem identifiers_are_held_by_leaves_only
    this n input_box max_depth boxes_per_leaf t :
  (Z.of_nat n <= INT_MAX)%Z →
  construct_from_leaf_boxes this n input_box max_depth boxes_per_leaf = Done t →
  ∀ s, s ∈ nodes t →
    indices_at_leaves_only s
    ∧ (length (children s) = 2 → index s = [])
    ∧ ¬ (children s ≠ [] ∧ index s ≠ []).
Proof.
  intros Hn (_ & _ & a' & H)%construct_from_leaf_boxes_inv s Hs.
  apply (nodes_have_a_depth 0) in Hs as [d Hs]. revert d s Hs.
  eapply (construct_recursively_nodes _ _ _ _ (seq 0 n)
            (λ _ s, indices_at_leaves_only s
                    ∧ (length (children s) = 2 → index s = [])
                    ∧ ¬ (children s ≠ [] ∧ index s ≠ [])));
    [| |exact H|done|done|rewrite length_seq; lia|lia].
  - intros d N a off _ HN _ _ _. cbn.
    assert (slice_index a off N ≠ []) as Hne.
    { intros E%(f_equal length). unfold slice_index in E.
      rewrite length_map, length_seq in E. cbn in E. lia. }
    unfold indices_at_leaves_only. cbn. intuition discriminate.
  - intros. unfold indices_at_leaves_only. cbn. intuition (done || discriminate).
Qed.

Lemma identifiers_are_held_by_leaves_only_witness :
  ∃ t, construct_from_leaf_boxes empty_tree 4 example_boxes 30 1 = Done t
       ∧ ∀ s, s ∈ nodes t →
           indices_at_leaves_only s
           ∧ (length (children s) = 2 → index s = [])
           ∧ ¬ (children s ≠ [] ∧ index s ≠ []).
Proof.
  eexists. split; [vm_compute; reflexivity|].
  apply (identifiers_are_held_by_leaves_only empty_tree 4 example_boxes 30 1);
    [vm_compute; discriminate|vm_compute; reflexivity].
Defined.

Lemma int_of_uint_of_nat_seq n :
  (Z.of_nat n <= INT_MAX)%Z →
  (λ k, int_of_uint (Z.of_nat k)) <$> seq 0 n = Z.of_nat <$> seq 0 n.
Proof.
  intros Hn. apply list_fmap_ext. intros i k Hk.
  apply lookup_seq in Hk as [-> ?]. apply int_of_uint_small. lia.
Qed.

(** C1. After [construct_from_leaf_boxes] returns, the [index] arrays of the
    leaves, taken together, hold every identifier [0..n-1] exactly once: no
    identifier is missing and none is repeated. *)
Theorem leaves_hold_every_identifier_once
    this n input_box max_depth boxes_per_leaf t :
  (Z.of_nat n <= INT_MAX)%Z →
  construct_from_leaf_boxes this n input_box max_depth boxes_per_leaf = Done t →
  leaf_indices t ≡ₚ Z.of_nat <$> seq 0 n
  ∧ NoDup (leaf_indices t)
  ∧ ∀ i, i ∈ leaf_indices t ↔ (0 <= i < Z.of_nat n)%Z.
Proof.
  intros Hn (_ & _ & a' & H)%construct_from_leaf_boxes_inv.
  assert (length (seq 0 n) = n) as Hlen by apply length_seq.
  pose proof (construct_recursively_frame _ _ _ _ _ _ _ _ _ _ _ _ _ H Hn ltac:(lia))
    as (Hp & Hl & _).
  apply construct_recursively_leaves in H; [|done|lia].
  assert (leaf_indices t ≡ₚ Z.of_nat <$> seq 0 n) as Hperm.
  { rewrite H, slice_index_slice.
    replace n with (length a') at 1 by lia.
    rewrite slice_whole, Hp. by rewrite int_of_uint_of_nat_seq. }
  split; [done|]. split.
  - rewrite Hperm. apply NoDup_fmap_2; [|apply NoDup_seq].
    intros x y. apply Nat2Z.inj.
  - intros i. rewrite Hperm, list_elem_of_fmap. split.
    + intros (k & -> & Hk%elem_of_seq). lia.
    + intros Hi. exists (Z.to_nat i). split; [lia|]. apply elem_of_seq. lia.
Qed.

Lemma leaves_hold_every_identifier_once_witness :
  ∃ t, construct_from_leaf_boxes empty_tree 4 example_boxes 30 1 = Done t
       ∧ leaf_indices t ≡ₚ Z.of_nat <$> seq 0 4
       ∧ NoDup (leaf_indices t)
       ∧ ∀ i, i ∈ leaf_indices t ↔ (0 <= i < Z.of_nat 4)%Z.
Proof.
  eexists. split; [vm_compute; reflexivity|].
  apply (leaves_hold_every_identifier_once empty_tree 4 example_boxes 30 1);
    [vm_compute; discriminate|vm_compute; reflexivity].
Defined.

(** ** What the slice functions read *)

Lemma fold_left_ext_in {A B} (f g : A → B → A) (l : list B) x :
  (∀ acc k, k ∈ l → f acc k = g acc k) → fold_left f l x = fold_left g l x.
Proof.
  revert x. induction l as [|k l IH]; intros x H; [done|].
  cbn. rewrite H by apply list_elem_of_here.
  apply IH. intros acc k' Hk'. apply H. by apply list_elem_of_further.
Qed.

Lemma local_slice a off N k : k < N → local (slice a off N) 0 k = local a off k.
Proof.
  intros Hk. unfold local at 1. apply list_lookup_total_correct.
  by apply slice_lookup.
Qed.

Lemma slice_centroid_box_local centroid a b off off' N :
  0 < N → (∀ k, k < N → local a off k = local b off' k) →
  slice_centroid_box centroid a off N = slice_centroid_box centroid b off' N.
Proof.
  intros HN H. unfold slice_centroid_box. rewrite (H 0) by done.
  apply fold_left_ext_in. intros acc k Hk%elem_of_seq. rewrite H by lia. done.
Qed.

Lemma centroids_coincide_slice centroid a off N :
  0 < N →
  centroids_coincide centroid (slice a off N) 0 N
  = centroids_coincide centroid a off N.
Proof.
  intros HN. unfold centroids_coincide.
  rewrite (slice_centroid_box_local centroid (slice a off N) a 0 off N); [done..|].
  intros k Hk. by apply local_slice.
Qed.

(** Identifiers that fit an [int] survive the round trip through [index]. *)
Lemma slice_of_slice_index a off N :
  Forall (λ x, (Z.of_nat x <= INT_MAX)%Z) a → off + N ≤ length a →
  Z.to_nat <$> slice_index a off N = slice a off N.
Proof.
  intros Ha Hlen. rewrite slice_index_slice, <- list_fmap_compose.
  rewrite <- (list_fmap_id (slice a off N)) at 2.
  apply list_fmap_ext. intros i x Hx. cbn.
  rewrite int_of_uint_small; [lia|].
  rewrite Forall_forall in Ha. apply Ha.
  assert (i < N) as Hi.
  { apply lookup_lt_Some in Hx. by rewrite slice_length in Hx. }
  rewrite slice_lookup in Hx by done. injection Hx as <-.
  apply (list_elem_of_lookup_2 a (off + i)), local_lookup. lia.
Qed.

Lemma seq_fits_int n :
  (Z.of_nat n <= INT_MAX)%Z → Forall (λ x, (Z.of_nat x <= INT_MAX)%Z) (seq 0 n).
Proof. intros Hn. apply Forall_forall. intros x Hx%elem_of_seq. lia. Qed.

(** C5, as the claim states it, fails: two boxes with one centroid stay
    together in a leaf at depth 0, although [boxes_per_leaf] is 1 and
    [max_depth] is 30 (lines 99-103). *)
Lemma coincident_centroids_break_the_leaf_bound :
  ∃ t, construct_from_leaf_boxes empty_tree 2 twin_boxes 30 1 = Done t
       ∧ ¬ depth_and_size_bound 30 1 t.
Proof.
  eexists. split; [vm_compute; reflexivity|].
  intros H. destruct (H 0 _ (list_elem_of_here _ _)) as [_ Hleaf].
  destruct (Hleaf eq_refl) as [Hsize|Hdepth]; cbn in *; lia.
Qed.

(** C5, amended. In a constructed tree no node lies deeper than
    [max_depth], and every leaf holds at most [boxes_per_leaf] identifiers,
    or lies at depth [max_depth], or holds identifiers whose centroids have
    a bounding box with [xmax == xmin]. *)
Theorem depth_and_leaf_size_are_bounded
    this n input_box max_depth boxes_per_leaf t :
  (Z.of_nat n <= INT_MAX)%Z →
  construct_from_leaf_boxes this n input_box max_depth boxes_per_leaf = Done t →
  ∀ d s, (d, s) ∈ nodes_from 0 t →
    d ≤ max_depth
    ∧ (children s = [] →
       length (index s) ≤ boxes_per_leaf ∨ d = max_depth
       ∨ leaf_centroids_coincide n input_box s = true).
Proof.
  intros Hn (_ & _ & a' & H)%construct_from_leaf_boxes_inv.
  eapply (construct_recursively_nodes _ _ _ _ (seq 0 n));
    [| |exact H|done|done|rewrite length_seq; lia|lia].
  - intros d N a off Hd HN Ha Hlen Hc. split; [done|]. intros _. cbn [index].
    assert (length (slice_index a off N) = N) as HlenN.
    { unfold slice_index. by rewrite length_map, length_seq. }
    rewrite HlenN.
    destruct Hc as [->|[?|Hc]]; [by right; left|by left|]. right. right.
    unfold leaf_centroids_coincide. cbn [index].
    rewrite length_map, HlenN, slice_of_slice_index;
      [|rewrite Ha; by apply seq_fits_int|done].
    by rewrite centroids_coincide_slice.
  - intros d N a off c0 c1 Hd _. split; [lia|]. discriminate.
Qed.

Lemma depth_and_leaf_size_are_bounded_witness :
  ∃ t, construct_from_leaf_boxes empty_tree 2 twin_boxes 30 1 = Done t
       ∧ ∀ d s, (d, s) ∈ nodes_from 0 t →
           d ≤ 30
           ∧ (children s = [] →
              length (index s) ≤ 1 ∨ d = 30
              ∨ leaf_centroids_coincide 2 twin_boxes s = true).
Proof.
  eexists. split; [vm_compute; reflexivity|].
  apply (depth_and_leaf_size_are_bounded empty_tree 2 twin_boxes 30 1);
    [vm_compute; discriminate|vm_compute; reflexivity].
Defined.

(** ** Termination *)

Section Termination.
Variables (input_box : list BoundingBox) (max_depth boxes_per_leaf : nat).
Variables (centroid : list Vec3d).

Local Abbreviation build :=
  (construct_recursively input_box max_depth boxes_per_leaf centroid).

(** The recursion stops for two reasons, each sufficient: the slice shrinks
    with every call, and the depth grows towards [max_depth]. *)
Lemma construct_recursively_total fuel ti tc d N a off :
  (Z.of_nat N <= INT_MAX)%Z → off + N ≤ length a →
  N ≤ fuel ∨ (d ≤ max_depth ∧ max_depth - d < fuel) →
  build fuel ti tc d N a off ≠ OutOfFuel.
Proof.
  revert ti tc d N a off.
  induction fuel as [|fuel IH]; intros ti tc d N a off HN Hlen Hfuel.
  { assert (N = 0) as -> by lia. discriminate. }
  cbn [construct_recursively]. unfold assert.
  destruct (0 <? N) eqn:HN0; [|discriminate].
  destruct ((d =? max_depth) || (N <=? boxes_per_leaf)) eqn:Hbase; [discriminate|].
  destruct (vec_eqb _ _); [discriminate|].
  destruct (partition_total centroid
              (select_axis (slice_centroid_box centroid a off N))
              (split_value (slice_centroid_box centroid a off N)
                 (slice_mean centroid a off N)
                 (select_axis (slice_centroid_box centroid a off N)))
              off N HN a ltac:(lia)) as [[i a1] Hp].
  rewrite Hp. cbn [bind].
  apply partition_spec in Hp as (Hi & Hp1 & Hl1 & _); [|done|lia|done].
  rewrite uint_of_int_small by lia.
  destruct (i <? Z.of_nat N)%Z eqn:HiN; [|discriminate].
  destruct (build fuel [] [] (d + 1) (Z.to_nat i) a1 off) as [[c0 a2]| |] eqn:H0;
    cbn [bind]; [|discriminate|].
  - pose proof (construct_recursively_inv _ _ _ _ _ _ _ _ _ _ _ _ _ H0) as [Hi0 _].
    apply construct_recursively_frame in H0 as (_ & Hl2 & _); [|lia..].
    destruct (build fuel [] [] (d + 1) (N - Z.to_nat i) a2 (off + Z.to_nat i))
      as [[c1 a3]| |] eqn:H1; cbn [bind]; [discriminate..|].
    exfalso. revert H1. apply IH; lia.
  - exfalso. revert H0. apply IH; lia.
Qed.

(** More fuel does not change an outcome that did not run out of fuel. *)
Lemma construct_recursively_fuel fuel fuel' ti tc d N a off :
  fuel ≤ fuel' →
  build fuel ti tc d N a off ≠ OutOfFuel →
  build fuel' ti tc d N a off = build fuel ti tc d N a off.
Proof.
  revert fuel' ti tc d N a off.
  induction fuel as [|fuel IH]; intros fuel' ti tc d N a off Hle Hr.
  { destruct N as [|N']; [by destruct fuel'|by destruct Hr]. }
  destruct fuel' as [|fuel']; [lia|].
  revert Hr. cbn [construct_recursively]. unfold assert.
  destruct (0 <? N); [|done].
  destruct ((d =? max_depth) || (N <=? boxes_per_leaf)); [done|].
  destruct (vec_eqb _ _); [done|].
  destruct (partition _ _ _ _ _ _) as [[i a1]| |]; cbn [bind]; [|done..].
  destruct (uint_of_int i <? Z.of_nat N)%Z; [|done].
  destruct (build fuel [] [] (d + 1) (Z.to_nat i) a1 off) as [[c0 a2]| |] eqn:H0;
    cbn [bind]; intros Hr; [| |done].
  - rewrite IH, H0 by (lia || congruence). cbn [bind].
    destruct (build fuel [] [] (d + 1) (N - Z.to_nat i) a2 (off + Z.to_nat i))
      as [[c1 a3]| |] eqn:H1; cbn [bind] in Hr |- *; [| |done].
    + rewrite IH, H1 by (lia || congruence). done.
    + rewrite IH, H1 by (lia || congruence). done.
  - rewrite IH, H0 by (lia || congruence). done.
Qed.
End Termination.

(** The recursion and the loop always end, on every input whose size fits
    an [int]: the entry point ends with a tree or at an assertion, never out
    of fuel; for the recursion a fuel of [n] (each call works on a strictly
    smaller slice) or of [max_depth + 1] (each call is one level deeper) is
    enough, and more fuel never changes the outcome; the partition loop ends
    as well. Whether the run ends with a tree is another matter, see
    below. *)
Lemma construction_terminates this n input_box max_depth boxes_per_leaf :
  (Z.of_nat n <= INT_MAX)%Z →
  construct_from_leaf_boxes this n input_box max_depth boxes_per_leaf ≠ OutOfFuel
  ∧ (∀ fuel, n ≤ fuel ∨ max_depth < fuel →
       construct_recursively input_box max_depth boxes_per_leaf
         (global_centroid n input_box) fuel [] [] 0 n (seq 0 n) 0
       = construct_recursively input_box max_depth boxes_per_leaf
           (global_centroid n input_box) n [] [] 0 n (seq 0 n) 0)
  ∧ (∀ centroid axis split off N a,
       0 < N ≤ n → ∃ i a', partition centroid axis split off N a = Done (i, a')).
Proof.
  intros Hn.
  assert (∀ fuel, n ≤ fuel ∨ max_depth < fuel →
            construct_recursively input_box max_depth boxes_per_leaf
              (global_centroid n input_box) fuel [] [] 0 n (seq 0 n) 0
            ≠ OutOfFuel) as Htotal.
  { intros fuel Hfuel. apply construct_recursively_total;
      [done|rewrite length_seq; lia|lia]. }
  split; [|split].
  - unfold construct_from_leaf_boxes, assert.
    destruct ((1 <=? n) && (0 <? boxes_per_leaf)); [|discriminate].
    cbn [clear index children].
    specialize (Htotal n ltac:(lia)).
    destruct (construct_recursively _ _ _ _ _ _ _ _ _ _ _) as [[t a']| |];
      cbn; [discriminate..|done].
  - intros fuel Hfuel.
    destruct (Nat.le_ge_cases n fuel).
    + apply construct_recursively_fuel; [done|]. apply Htotal. lia.
    + symmetry. apply construct_recursively_fuel; [done|]. by apply Htotal.
  - intros centroid axis split off N a HN.
    destruct (partition_total centroid axis split off N ltac:(lia) a ltac:(lia))
      as [[i a'] H]. eauto.
Qed.

Lemma construction_terminates_witness :
  construct_from_leaf_boxes empty_tree 4 example_boxes 30 1 ≠ OutOfFuel
  ∧ (∀ fuel, 4 ≤ fuel ∨ 30 < fuel →
       construct_recursively example_boxes 30 1
         (global_centroid 4 example_boxes) fuel [] [] 0 4 (seq 0 4) 0
       = construct_recursively example_boxes 30 1
           (global_centroid 4 example_boxes) 4 [] [] 0 4 (seq 0 4) 0)
  ∧ (∀ centroid axis split off N a,
       0 < N ≤ 4 → ∃ i a', partition centroid axis split off N a = Done (i, a')).
Proof.
  apply (construction_terminates empty_tree 4 example_boxes 30 1).
  vm_compute. discriminate.
Defined.

(** C8, at an input on which the code misses it. The input is valid: two
    boxes with finite coordinates and [boxes_per_leaf = 1]. The run ends,
    but it returns no tree: for every [max_depth] other than 0 and whatever
    the node held before, it stops at the assertion of line 134, because the
    split value of lines 115-117 equals the larger of the two centroids and
    the partition leaves nothing for the second child. *)
Theorem a_valid_input_on_which_no_tree_is_returned this max_depth :
  Forall (λ b, valid_box b = true) adjacent_boxes
  ∧ construct_from_leaf_boxes this 2 adjacent_boxes (S max_depth) 1
    = AssertionFailed
  ∧ ¬ (∃ t, construct_from_leaf_boxes this 2 adjacent_boxes (S max_depth) 1
            = Done t).
Proof.
  split; [repeat constructor|].
  assert (construct_from_leaf_boxes this 2 adjacent_boxes (S max_depth) 1
          = AssertionFailed) as H by (vm_compute; reflexivity).
  split; [exact H|]. intros [t Ht]. congruence.
Qed.

(** ** The partition, as the recursion uses it *)

(** C3. The partition returns; it permutes the identifiers of the slice
    and leaves the rest of the array alone; every identifier whose centroid
    on the axis is [<= split] ends in [[0, i)] and every identifier whose
    centroid is [> split] ends in [[i, num_indices)]. When neither the
    centroid nor the split value is a NaN the two groups are exactly the
    two ranges. *)
Theorem partition_splits_the_slice centroid axis split off N a :
  0 < N → (Z.of_nat N <= INT_MAX)%Z → off + N ≤ length a →
  ∃ i a',
    partition centroid axis split off N a = Done (i, a')
    ∧ (0 <= i <= Z.of_nat N)%Z
    ∧ slice a' off N ≡ₚ slice a off N
    ∧ length a' = length a
    ∧ (∀ k, k < off ∨ off + N ≤ k → a' !! k = a !! k)
    ∧ ∀ k, k < N →
        let c := vnth (centroid !!! local a' off k) axis in
        ((c <=? split)%float = true → (Z.of_nat k < i)%Z)
        ∧ ((split <? c)%float = true → (i <= Z.of_nat k)%Z)
        ∧ (is_nan c = false → is_nan split = false →
           ((Z.of_nat k < i)%Z ↔ (c <=? split)%float = true)
           ∧ ((i <= Z.of_nat k)%Z ↔ (split <? c)%float = true)).
Proof.
  intros HN0 HN Hlen.
  destruct (partition_total centroid axis split off N HN a HN0) as [[i a'] H].
  exists i, a'. split; [done|].
  apply partition_spec in H as (Hi & Hp & Hl & Hfr & Hlo & Hhi); [|done..].
  split; [done|]. split; [by apply slice_perm|]. split; [done|]. split; [done|].
  intros k Hk c.
  assert (c = key centroid axis off a' (Z.of_nat k)) as Hc.
  { unfold key. by rewrite Nat2Z.id. }
  assert ((c <=? split)%float = true → (Z.of_nat k < i)%Z) as H1.
  { intros Hle. destruct (decide (Z.of_nat k < i)%Z) as [|Hge]; [done|].
    rewrite Hc, Hhi in Hle by lia. done. }
  assert ((split <? c)%float = true → (i <= Z.of_nat k)%Z) as H2.
  { intros Hgt. destruct (decide (i <= Z.of_nat k)%Z) as [|Hlt]; [done|].
    rewrite Hc, Hlo in Hgt by lia. done. }
  split; [done|]. split; [done|].
  intros Hnc Hns. split; (split; [|done]).
  - intros Hlt. specialize (Hlo (Z.of_nat k) ltac:(lia)). rewrite <- Hc in Hlo.
    clear -Hlo Hnc Hns. float_order.
  - intros Hge. specialize (Hhi (Z.of_nat k) ltac:(lia)). rewrite <- Hc in Hhi.
    clear -Hhi Hnc Hns. float_order.
Qed.

Lemma partition_splits_the_slice_witness :
  ∃ i a',
    partition (global_centroid 4 shuffled_boxes) 0 5.5 0 4 (seq 0 4)
    = Done (i, a')
    ∧ (0 <= i <= Z.of_nat 4)%Z
    ∧ slice a' 0 4 ≡ₚ slice (seq 0 4) 0 4
    ∧ length a' = length (seq 0 4)
    ∧ (∀ k, k < 0 ∨ 0 + 4 ≤ k → a' !! k = seq 0 4 !! k)
    ∧ ∀ k, k < 4 →
        let c := vnth (global_centroid 4 shuffled_boxes !!! local a' 0 k) 0 in
        ((c <=? 5.5)%float = true → (Z.of_nat k < i)%Z)
        ∧ ((5.5 <? c)%float = true → (i <= Z.of_nat k)%Z)
        ∧ (is_nan c = false → is_nan 5.5 = false →
           ((Z.of_nat k < i)%Z ↔ (c <=? 5.5)%float = true)
           ∧ ((i <= Z.of_nat k)%Z ↔ (5.5 <? c)%float = true)).
Proof.
  apply (partition_splits_the_slice (global_centroid 4 shuffled_boxes) 0 5.5
           0 4 (seq 0 4)); [lia|vm_compute; discriminate|cbn; lia].
Defined.

(** ** The split axis (lines 106-111) *)


(** ** The split value (lines 115-117) *)

(** C2, at an input on which the code misses it. The two centroids are the
    neighbouring values [1 + 2^-52] and [1 + 2^-51]. Their sum rounds up to
    [2 + 2^-50], so the mean is the larger centroid and is rejected by the
    test of line 116, and the midpoint of line 117, computed from the same
    sum, is the larger centroid again: the split value equals the upper
    bound of the centroid interval. The partition then keeps both
    identifiers on the left, [i = num_indices = 2], and the assertion of
    line 134 stops the construction. *)
Theorem split_value_can_equal_the_upper_bound :
  let centroid := global_centroid 2 adjacent_boxes in
  let cb := slice_centroid_box centroid (seq 0 2) 0 2 in
  Forall (λ b, valid_box b = true) adjacent_boxes
  ∧ centroids_coincide centroid (seq 0 2) 0 2 = false
  ∧ slice_axis centroid (seq 0 2) 0 2 = 0
  ∧ vnth (xmin cb) 0 = 0x1.0000000000001p+0%float
  ∧ vnth (xmax cb) 0 = 0x1.0000000000002p+0%float
  ∧ vnth (slice_mean centroid (seq 0 2) 0 2) 0 = 0x1.0000000000002p+0%float
  ∧ slice_split centroid (seq 0 2) 0 2 = 0x1.0000000000002p+0%float
  ∧ (slice_split centroid (seq 0 2) 0 2 <? vnth (xmax cb) 0)%float = false
  ∧ partition centroid 0 (slice_split centroid (seq 0 2) 0 2) 0 2 (seq 0 2)
    = Done (2%Z, seq 0 2)
  ∧ construct_from_leaf_boxes empty_tree 2 adjacent_boxes 30 1
    = AssertionFailed.
Proof.
  split; [repeat constructor|].
  vm_compute. repeat split; reflexivity.
Qed.

(** What does hold: when some identifier of the slice has its centroid at
    most [split] and some identifier has its centroid above [split], the
    boundary lies strictly inside the slice. *)
Lemma partition_boundary_inside centroid axis split off N a i a' k1 k2 :
  partition centroid axis split off N a = Done (i, a') →
  0 < N → (Z.of_nat N <= INT_MAX)%Z → off + N ≤ length a →
  k1 < N → k2 < N →
  (vnth (centroid !!! local a off k1) axis <=? split)%float = true →
  (split <? vnth (centroid !!! local a off k2) axis)%float = true →
  (0 < i < Z.of_nat N)%Z.
Proof.
  intros H HN0 HN Hlen Hk1 Hk2 Hle Hgt.
  apply partition_spec in H as (Hi & Hp & Hl & Hfr & Hlo & Hhi); [|done..].
  pose proof (slice_perm a a' off N Hlen Hp Hl Hfr) as Hs.
  assert (∀ k, k < N → ∃ k', k' < N ∧ local a' off k' = local a off k) as Hmove.
  { intros k Hk.
    assert (local a off k ∈ slice a' off N) as Hin.
    { rewrite Hs. eapply list_elem_of_lookup_2. by apply slice_lookup. }
    apply list_elem_of_lookup_1 in Hin as [k' Hk'].
    assert (k' < N) as Hk'N.
    { apply lookup_lt_Some in Hk'. by rewrite slice_length in Hk'. }
    rewrite slice_lookup in Hk' by done. injection Hk' as Hk'. eauto. }
  destruct (Hmove k1 Hk1) as (k1' & Hk1' & E1).
  destruct (Hmove k2 Hk2) as (k2' & Hk2' & E2).
  split.
  - destruct (decide (i <= Z.of_nat k1')%Z) as [Hge|]; [|lia].
    specialize (Hhi (Z.of_nat k1') ltac:(lia)).
    unfold key in Hhi. rewrite Nat2Z.id, E1, Hle in Hhi. done.
  - destruct (decide (Z.of_nat k2' < i)%Z) as [Hlt|]; [|lia].
    specialize (Hlo (Z.of_nat k2') ltac:(lia)).
    unfold key in Hlo. rewrite Nat2Z.id, E2, Hgt in Hlo. done.
Qed.

(** ** Identical boxes *)

Lemma fold_left_fixed {A B} (f : A → B → A) (l : list B) x :
  (∀ k, k ∈ l → f x k = x) → fold_left f l x = x.
Proof.
  induction l as [|k l IH]; intros H; [done|].
  cbn. rewrite H by apply list_elem_of_here.
  apply IH. intros k' Hk'. apply H. by apply list_elem_of_further.
Qed.

Lemma fmin_same x : fmin x x = x.
Proof. unfold fmin. by rewrite ltb_irrefl. Qed.

Lemma fmax_same x : fmax x x = x.
Proof. unfold fmax. by rewrite ltb_irrefl. Qed.

Lemma include_box_same b : include_box b b = b.
Proof.
  destruct b as [[] []]. unfold include_box, vec_min, vec_max. cbn.
  by rewrite !fmin_same, !fmax_same.
Qed.

Lemma include_point_same c : include_point (box_of_point c) c = box_of_point c.
Proof.
  destruct c. unfold include_point, box_of_point, vec_min, vec_max. cbn.
  by rewrite !fmin_same, !fmax_same.
Qed.

Lemma local_seq n k : k < n → local (seq 0 n) 0 k = k.
Proof.
  intros Hk. unfold local. apply list_lookup_total_correct.
  by rewrite lookup_seq_lt.
Qed.

Lemma centroid_component_not_nan x y :
  is_finite x = true → is_finite y = true →
  is_nan (0.5 * (x + y)) = false.
Proof. intros Hx Hy. by apply half_not_nan, add_finite_not_nan. Qed.

Lemma eqb_refl_not_nan x : is_nan x = false → (x =? x)%float = true.
Proof. intros H. float_order. Qed.

Lemma box_centroid_eqb b :
  valid_box b = true → vec_eqb (box_centroid b) (box_centroid b) = true.
Proof.
  unfold valid_box, finite_vec. intros H.
  rewrite !andb_true_iff in H. destruct H as [[[? ?] ?] [[? ?] ?]].
  unfold vec_eqb, box_centroid, vec_scale, vec_add. cbn.
  rewrite !eqb_refl_not_nan; [done|by apply centroid_component_not_nan..].
Qed.

(** C6. When the [n] input boxes are one and the same valid box, the
    result is a single leaf with that box and the identifiers [0..n-1],
    whatever [max_depth] and [boxes_per_leaf] are. *)
Theorem identical_boxes_give_a_single_leaf
    this n b max_depth boxes_per_leaf :
  1 ≤ n → (Z.of_nat n <= INT_MAX)%Z → 1 ≤ boxes_per_leaf →
  valid_box b = true →
  construct_from_leaf_boxes this n (replicate n b) max_depth boxes_per_leaf
  = Done (Node b (Z.of_nat <$> seq 0 n) []).
Proof.
  intros Hn1 Hn Hb Hvalid.
  unfold construct_from_leaf_boxes, assert.
  destruct ((1 <=? n) && (0 <? boxes_per_leaf)) eqn:E; [|lia].
  cbn [clear index children].
  assert (∀ k, k < n → replicate n b !!! local (seq 0 n) 0 k = b) as Hbox.
  { intros k Hk. rewrite local_seq by done.
    apply list_lookup_total_correct. by apply lookup_replicate_2. }
  assert (∀ k, k < n →
            global_centroid n (replicate n b) !!! local (seq 0 n) 0 k
            = box_centroid b) as Hcen.
  { intros k Hk. rewrite local_seq by done.
    apply list_lookup_total_correct. unfold global_centroid.
    rewrite list_lookup_fmap, lookup_seq_lt by done. cbn. do 2 f_equal.
    apply list_lookup_total_correct. by apply lookup_replicate_2. }
  assert (slice_box (replicate n b) (seq 0 n) 0 n = b) as Hsb.
  { unfold slice_box. rewrite Hbox by lia.
    apply fold_left_fixed. intros k Hk%elem_of_seq.
    rewrite Hbox by lia. apply include_box_same. }
  assert (slice_index (seq 0 n) 0 n = Z.of_nat <$> seq 0 n) as Hsi.
  { rewrite slice_index_slice.
    replace n with (length (seq 0 n)) at 2 by apply length_seq.
    rewrite slice_whole. by apply int_of_uint_of_nat_seq. }
  assert (slice_centroid_box (global_centroid n (replicate n b)) (seq 0 n) 0 n
          = box_of_point (box_centroid b)) as Hcb.
  { unfold slice_centroid_box. rewrite Hcen by lia.
    apply fold_left_fixed. intros k Hk%elem_of_seq.
    rewrite Hcen by lia. apply include_point_same. }
  destruct n as [|n']; [lia|].
  cbn [construct_recursively]. unfold assert.
  change (0 <? S n') with true. cbv iota.
  rewrite Hsb, Hsi, Hcb. cbn [box_of_point xmin xmax].
  rewrite box_centroid_eqb by done.
  by destruct (_ || _).
Qed.

Lemma identical_boxes_give_a_single_leaf_witness :
  construct_from_leaf_boxes empty_tree 2 (replicate 2 (point_box 1)) 30 1
  = Done (Node (point_box 1) (Z.of_nat <$> seq 0 2) []).
Proof.
  apply (identical_boxes_give_a_single_leaf empty_tree 2 (point_box 1) 30 1);
    [lia|vm_compute; discriminate|lia|vm_compute; reflexivity].
Defined.

(** ** Least and greatest coordinates *)

Section Extremum.
Variables (le : float → float → bool) (choose : float → float → float).
Hypothesis choose_cases : ∀ c x, choose c x = c ∨ choose c x = x.
Hypothesis choose_le : ∀ c x,
  is_nan c = false → is_nan x = false →
  le (choose c x) c = true ∧ le (choose c x) x = true.
Hypothesis le_trans : ∀ x y z, le x y = true → le y z = true → le x z = true.

Lemma choose_not_nan c x :
  is_nan c = false → is_nan x = false → is_nan (choose c x) = false.
Proof. intros. by destruct (choose_cases c x) as [-> | ->]. Qed.

Lemma fold_choose_extremum l x :
  is_nan x = false → Forall (λ y, is_nan y = false) l →
  extremum le (fold_left choose l x) (x :: l).
Proof.
  revert x. induction l as [|y l IH]; intros x Hx Hl.
  - cbn. split; [apply list_elem_of_here|].
    intros y ->%list_elem_of_singleton.
    destruct (choose_le x x Hx Hx) as [H _].
    by destruct (choose_cases x x) as [E|E]; rewrite E in H.
  - apply Forall_cons in Hl as [Hy Hl]. cbn [fold_left].
    destruct (IH (choose x y) (choose_not_nan x y Hx Hy) Hl) as [Hin Hle].
    destruct (choose_le x y Hx Hy) as [Hcx Hcy].
    pose proof (Hle _ (list_elem_of_here _ _)) as Hm.
    split.
    + apply elem_of_cons in Hin as [->|Hin].
      * destruct (choose_cases x y) as [-> | ->];
          [apply list_elem_of_here|apply list_elem_of_further, list_elem_of_here].
      * by do 2 apply list_elem_of_further.
    + intros z. rewrite !elem_of_cons. intros [->|[->|Hz]]; [by eauto..|].
      apply Hle. by apply list_elem_of_further.
Qed.

Lemma extremum_app m0 l0 m1 l1 :
  is_nan m0 = false → is_nan m1 = false →
  extremum le m0 l0 → extremum le m1 l1 →
  extremum le (choose m0 m1) (l0 ++ l1).
Proof.
  intros H0 H1 [Hin0 Hle0] [Hin1 Hle1].
  destruct (choose_le m0 m1 H0 H1) as [Hc0 Hc1]. split.
  - apply elem_of_app. destruct (choose_cases m0 m1) as [-> | ->]; auto.
  - intros y [Hy|Hy]%elem_of_app; eauto.
Qed.
End Extremum.

Lemma extremum_perm le m l l' : l ≡ₚ l' → extremum le m l → extremum le m l'.
Proof.
  intros Hp [Hin Hle]. split; [by rewrite <- Hp|].
  intros y Hy. apply Hle. by rewrite Hp.
Qed.

Lemma extremum_le le m l m' l' :
  extremum le m l → extremum le m' l' → l' ⊆ l → le m m' = true.
Proof. intros [_ Hle] [Hin _] Hsub. apply Hle, Hsub, Hin. Qed.

Lemma fmin_cases c x : fmin c x = c ∨ fmin c x = x.
Proof. unfold fmin. destruct (x <? c)%float; auto. Qed.

Lemma fmax_cases c x : fmax c x = c ∨ fmax c x = x.
Proof. unfold fmax. destruct (c <? x)%float; auto. Qed.

Lemma fmin_le c x :
  is_nan c = false → is_nan x = false →
  (fmin c x <=? c)%float = true ∧ (fmin c x <=? x)%float = true.
Proof.
  intros Hc Hx. unfold fmin. destruct (x <? c)%float eqn:E; split; float_order.
Qed.

Lemma fmax_ge c x :
  is_nan c = false → is_nan x = false →
  geb (fmax c x) c = true ∧ geb (fmax c x) x = true.
Proof.
  intros Hc Hx. unfold fmax, geb.
  destruct (c <? x)%float eqn:E; split; float_order.
Qed.

Lemma leb_trans x y z :
  (x <=? y)%float = true → (y <=? z)%float = true → (x <=? z)%float = true.
Proof. intros. float_order. Qed.

Lemma geb_trans x y z : geb x y = true → geb y z = true → geb x z = true.
Proof. unfold geb. intros. float_order. Qed.

Lemma leb_antisym x y :
  (x <=? y)%float = true → (y <=? x)%float = true → (x =? y)%float = true.
Proof. intros. float_order. Qed.

Lemma is_finite_not_nan x : is_finite x = true → is_nan x = false.
Proof. intros. float_order. Qed.

(** ** Boxes as least and greatest corners *)

Lemma vnth_vec_min u v a : vnth (vec_min u v) a = fmin (vnth u a) (vnth v a).
Proof. by destruct a as [|[|a]]. Qed.

Lemma vnth_vec_max u v a : vnth (vec_max u v) a = fmax (vnth u a) (vnth v a).
Proof. by destruct a as [|[|a]]. Qed.

Lemma vnth_fold_include_box_min bs b a :
  vnth (xmin (fold_left include_box bs b)) a
  = fold_left fmin ((λ o, vnth (xmin o) a) <$> bs) (vnth (xmin b) a).
Proof.
  revert b. induction bs as [|o bs IH]; intros b; [done|].
  cbn [fold_left fmap list_fmap]. rewrite IH. by rewrite <- vnth_vec_min.
Qed.

Lemma vnth_fold_include_box_max bs b a :
  vnth (xmax (fold_left include_box bs b)) a
  = fold_left fmax ((λ o, vnth (xmax o) a) <$> bs) (vnth (xmax b) a).
Proof.
  revert b. induction bs as [|o bs IH]; intros b; [done|].
  cbn [fold_left fmap list_fmap]. rewrite IH. by rewrite <- vnth_vec_max.
Qed.

Lemma valid_box_not_nan b a :
  valid_box b = true →
  is_nan (vnth (xmin b) a) = false ∧ is_nan (vnth (xmax b) a) = false.
Proof.
  unfold valid_box, finite_vec. rewrite !andb_true_iff.
  intros [[[? ?] ?] [[? ?] ?]].
  destruct a as [|[|a]]; split; by apply is_finite_not_nan.
Qed.

Lemma valid_coordinates_not_nan bs a :
  Forall (λ b, valid_box b = true) bs →
  Forall (λ y, is_nan y = false) ((λ o, vnth (xmin o) a) <$> bs)
  ∧ Forall (λ y, is_nan y = false) ((λ o, vnth (xmax o) a) <$> bs).
Proof.
  intros H. split; apply Forall_fmap; eapply Forall_impl; try exact H;
    intros b Hb; by apply (valid_box_not_nan b a).
Qed.

Lemma union_bounds bs :
  bs ≠ [] → Forall (λ b, valid_box b = true) bs → bounds (union_boxes bs) bs.
Proof.
  destruct bs as [|b bs]; [done|]. intros _ Hv a.
  destruct (valid_coordinates_not_nan _ a Hv) as [Hlo Hhi].
  cbn [fmap list_fmap] in Hlo, Hhi.
  apply Forall_cons in Hlo as [Hlo0 Hlo], Hhi as [Hhi0 Hhi].
  cbn [union_boxes]. rewrite vnth_fold_include_box_min, vnth_fold_include_box_max.
  split.
  - by apply (fold_choose_extremum _ _ fmin_cases fmin_le leb_trans).
  - by apply (fold_choose_extremum _ _ fmax_cases fmax_ge geb_trans).
Qed.

Lemma bounds_perm b bs bs' : bs ≡ₚ bs' → bounds b bs → bounds b bs'.
Proof.
  intros Hp H a. destruct (H a) as [Hlo Hhi].
  split; eapply extremum_perm; try eassumption; by apply fmap_Permutation.
Qed.

Lemma bounds_not_nan b bs a :
  Forall (λ b, valid_box b = true) bs → bounds b bs →
  is_nan (vnth (xmin b) a) = false ∧ is_nan (vnth (xmax b) a) = false.
Proof.
  intros Hv H. destruct (H a) as [[Hlo _] [Hhi _]].
  destruct (valid_coordinates_not_nan _ a Hv) as [Flo Fhi].
  rewrite Forall_forall in Flo, Fhi. auto.
Qed.

Lemma bounds_include b0 l0 b1 l1 :
  Forall (λ b, valid_box b = true) l0 →
  Forall (λ b, valid_box b = true) l1 →
  bounds b0 l0 → bounds b1 l1 → bounds (include_box b0 b1) (l0 ++ l1).
Proof.
  intros Hv0 Hv1 H0 H1 a.
  destruct (bounds_not_nan _ _ a Hv0 H0), (bounds_not_nan _ _ a Hv1 H1).
  destruct (H0 a), (H1 a).
  unfold include_box. cbn [xmin xmax].
  rewrite vnth_vec_min, vnth_vec_max, !fmap_app. split.
  - by apply (extremum_app _ _ fmin_cases fmin_le leb_trans).
  - by apply (extremum_app _ _ fmax_cases fmax_ge geb_trans).
Qed.

Lemma vec_eqb_vnth u v :
  (∀ a, (vnth u a =? vnth v a)%float = true) → vec_eqb u v = true.
Proof.
  intros H. unfold vec_eqb. rewrite !andb_true_iff.
  split; [split|]; [exact (H 0)|exact (H 1)|exact (H 2)].
Qed.

Lemma vec_leb_vnth u v :
  (∀ a, (vnth u a <=? vnth v a)%float = true) → vec_leb u v = true.
Proof.
  intros H. unfold vec_leb. rewrite !andb_true_iff.
  split; [split|]; [exact (H 0)|exact (H 1)|exact (H 2)].
Qed.

Lemma bounds_box_eqb b b' bs :
  bounds b bs → bounds b' bs → box_eqb b b' = true.
Proof.
  intros H H'. unfold box_eqb. apply andb_true_iff.
  split; apply vec_eqb_vnth; intros a;
    destruct (H a) as [Hlo Hhi], (H' a) as [Hlo' Hhi'].
  - apply leb_antisym; eapply extremum_le; eauto.
  - apply leb_antisym; [eapply (extremum_le geb _ _ _ _ Hhi' Hhi)
                       |eapply (extremum_le geb _ _ _ _ Hhi Hhi')]; done.
Qed.

Lemma fmap_subseteq {A B} (f : A → B) (l l' : list A) :
  l' ⊆ l → f <$> l' ⊆ f <$> l.
Proof.
  intros Hsub y (o & -> & Ho)%list_elem_of_fmap.
  apply list_elem_of_fmap_2, Hsub, Ho.
Qed.

Lemma bounds_contains b bs b' bs' :
  bounds b bs → bounds b' bs' → bs' ⊆ bs → box_contains b b' = true.
Proof.
  intros H H' Hsub. unfold box_contains. apply andb_true_iff.
  split; apply vec_leb_vnth; intros a;
    destruct (H a) as [Hlo Hhi], (H' a) as [Hlo' Hhi'].
  - eapply extremum_le; eauto. by apply fmap_subseteq.
  - eapply (extremum_le geb _ _ _ _ Hhi Hhi'). by apply fmap_subseteq.
Qed.

Lemma bounds_contains_elem b bs o :
  bounds b bs → o ∈ bs → box_contains b o = true.
Proof.
  intros H Ho. unfold box_contains. apply andb_true_iff.
  split; apply vec_leb_vnth; intros a; destruct (H a) as [[_ Hlo] [_ Hhi]].
  - apply Hlo. by apply (list_elem_of_fmap_2 (λ o, vnth (xmin o) a)).
  - apply (Hhi (vnth (xmax o) a)).
    by apply (list_elem_of_fmap_2 (λ o, vnth (xmax o) a)).
Qed.

(** ** The boxes of the nodes *)

Lemma leaf_indices_pair b idx c0 c1 :
  leaf_indices (Node b idx [c0; c1]) = leaf_indices c0 ++ leaf_indices c1.
Proof. cbn. by rewrite app_nil_r. Qed.

Lemma nodes_trans t s s' : s ∈ nodes t → s' ∈ nodes s → s' ∈ nodes t.
Proof.
  induction t as [b idx cs IH] using BoundingBoxTree_ind'.
  cbn [nodes]. rewrite elem_of_cons. intros [->|Hs] Hs'; [done|].
  apply list_elem_of_In, in_flat_map in Hs as (c & Hc & Hs).
  apply list_elem_of_In in Hc, Hs. rewrite Forall_forall in IH.
  apply list_elem_of_further, list_elem_of_In, in_flat_map.
  exists c. split; apply list_elem_of_In; [done|]. by apply IH.
Qed.

Lemma leaf_indices_below t s : s ∈ nodes t → leaf_indices s ⊆ leaf_indices t.
Proof.
  induction t as [b idx cs IH] using BoundingBoxTree_ind'.
  cbn [nodes]. rewrite elem_of_cons. intros [->|Hs]; [done|].
  apply list_elem_of_In, in_flat_map in Hs as (c & Hc & Hs).
  apply list_elem_of_In in Hc, Hs. rewrite Forall_forall in IH.
  intros i Hi. apply (IH c Hc Hs) in Hi.
  destruct cs as [|c' cs']; [by apply elem_of_nil in Hc|].
  cbn [leaf_indices]. apply list_elem_of_In, in_flat_map.
  exists c. split; by apply list_elem_of_In.
Qed.

Lemma fold_left_fmap {A B C} (f : A → B → A) (g : C → B) (l : list C) x :
  fold_left f (g <$> l) x = fold_left (λ acc k, f acc (g k)) l x.
Proof. revert x. induction l as [|k l IH]; intros x; [done|]. cbn. apply IH. Qed.

Lemma slice_box_union input_box a off N :
  0 < N →
  slice_box input_box a off N
  = union_boxes ((λ k, input_box !!! k) <$> slice a off N).
Proof.
  destruct N as [|N]; [lia|]. intros _.
  unfold slice_box, slice. cbn [seq map fmap list_fmap union_boxes].
  replace (S N - 1) with N by lia.
  change (map (local a off) (seq 1 N)) with (local a off <$> seq 1 N).
  by rewrite <- list_fmap_compose, fold_left_fmap.
Qed.

Lemma valid_lookup_total (input_box : list BoundingBox) k :
  Forall (λ b, valid_box b = true) input_box →
  valid_box (input_box !!! k) = true.
Proof.
  intros H. rewrite list_lookup_total_alt.
  destruct (input_box !! k) as [b|] eqn:E; [|by vm_compute].
  rewrite Forall_forall in H. by eapply H, list_elem_of_lookup_2.
Qed.

Lemma valid_reads (input_box : list BoundingBox) {A} (f : A → nat) (l : list A) :
  Forall (λ b, valid_box b = true) input_box →
  Forall (λ b, valid_box b = true) ((λ i, input_box !!! f i) <$> l).
Proof.
  intros H. apply Forall_fmap, Forall_forall. intros i _.
  by apply valid_lookup_total.
Qed.

Section BoxFacts.
Variables (input_box : list BoundingBox) (max_depth boxes_per_leaf : nat).
Variables (centroid : list Vec3d).
Hypothesis input_valid : Forall (λ b, valid_box b = true) input_box.

Local Abbreviation build :=
  (construct_recursively input_box max_depth boxes_per_leaf centroid).

Lemma leaf_boxes_slice fuel d N a off t a' :
  build fuel [] [] d N a off = Done (t, a') →
  (Z.of_nat N <= INT_MAX)%Z → off + N ≤ length a →
  Forall (λ x, (Z.of_nat x <= INT_MAX)%Z) a →
  leaf_boxes input_box t = (λ k, input_box !!! k) <$> slice a' off N
  ∧ slice a' off N ≡ₚ slice a off N.
Proof.
  intros H HN Hlen Ha.
  pose proof (construct_recursively_frame _ _ _ _ _ _ _ _ _ _ _ _ _ H HN Hlen)
    as (Hp & Hl & Hfr).
  split; [|by apply slice_perm].
  unfold leaf_boxes.
  rewrite (construct_recursively_leaves _ _ _ _ _ _ _ _ _ _ _ _ H HN Hlen).
  rewrite <- slice_of_slice_index; [|by rewrite Hp|lia].
  by rewrite <- list_fmap_compose.
Qed.

(** Every node's box has, on each axis, the least lower and the greatest
    upper coordinate of the input boxes below the node. *)
Lemma construct_recursively_bounds fuel d N a off t a' :
  build fuel [] [] d N a off = Done (t, a') →
  (Z.of_nat N <= INT_MAX)%Z → off + N ≤ length a →
  Forall (λ x, (Z.of_nat x <= INT_MAX)%Z) a →
  ∀ s, s ∈ nodes t → bounds (box s) (leaf_boxes input_box s).
Proof.
  revert d N a off t a'.
  induction fuel as [|fuel IH]; intros d N a off t a' H HN Hlen Ha.
  { by destruct N. }
  assert (bounds (box t) (leaf_boxes input_box t)) as Hroot.
  { destruct (leaf_boxes_slice _ _ _ _ _ _ _ H HN Hlen Ha) as [-> Hp].
    apply construct_recursively_inv in H as [HN0 H].
    assert (box t = slice_box input_box a off N) as ->.
    { by destruct H as [(_ & -> & _)|(_ & _ & _ & ? & ? & ? & ? & ? & ? & _ & _ & _ & _ & _ & ->)]. }
    rewrite slice_box_union by done.
    eapply bounds_perm; [apply fmap_Permutation; symmetry; exact Hp|].
    apply union_bounds; [|by apply (valid_reads input_box id)].
    intros E%(f_equal length). rewrite length_fmap, slice_length in E.
    cbn in E. lia. }
  apply construct_recursively_inv in H as [HN0 H].
  destruct H as [(_ & -> & ->)|(_ & _ & _ & f & i & a1 & c0 & a2 & c1 & Hf & Hp & Hi & H0 & H1 & ->)].
  { intros s ->%list_elem_of_singleton. exact Hroot. }
  injection Hf as <-.
  apply partition_spec in Hp as (Hi' & Hp1 & Hl1 & Hfr1 & _); [|done..].
  rewrite uint_of_int_small in Hi by lia.
  pose proof (construct_recursively_frame _ _ _ _ _ _ _ _ _ _ _ _ _ H0 ltac:(lia) ltac:(lia))
    as (Hp2 & Hl2 & Hfr2).
  intros s. rewrite nodes_pair, elem_of_cons, elem_of_app.
  intros [->|[Hs|Hs]]; [exact Hroot| |].
  - eapply (IH _ _ _ _ _ _ H0); [lia..|by rewrite Hp1|done].
  - eapply (IH _ _ _ _ _ _ H1); [lia..|by rewrite Hp2, Hp1|done].
Qed.

(** From the corners to the union. *)
Lemma bounds_box_is_union t :
  (∀ s, s ∈ nodes t → bounds (box s) (leaf_boxes input_box s)) →
  ∀ s, s ∈ nodes t → box_is_union input_box s.
Proof.
  intros Hb s Hs. pose proof (Hb s Hs) as Hbs.
  assert (∀ r, Forall (λ b, valid_box b = true) (leaf_boxes input_box r)) as Hv.
  { intros r. by apply (valid_reads input_box Z.to_nat). }
  split; [|split; [|split]].
  - apply (bounds_box_eqb _ _ _ Hbs). apply union_bounds; [|done].
    intros E. destruct (Hbs 0) as [[Hin _] _]. rewrite E in Hin.
    by apply elem_of_nil in Hin.
  - intros i Hi. apply (bounds_contains_elem _ _ _ Hbs).
    by apply (list_elem_of_fmap_2 (λ i, input_box !!! Z.to_nat i)).
  - intros c0 c1 Hc. destruct s as [b idx cs]. cbn in Hc. subst cs.
    apply (bounds_box_eqb _ _ _ Hbs).
    unfold leaf_boxes at 1. rewrite leaf_indices_pair, fmap_app.
    apply bounds_include; [apply Hv..| |]; apply Hb, (nodes_trans _ _ _ Hs);
      rewrite nodes_pair, elem_of_cons, elem_of_app;
      right; [left|right]; apply nodes_root.
  - intros s' Hs'. apply (bounds_contains _ _ _ _ Hbs (Hb s' (nodes_trans _ _ _ Hs Hs'))).
    apply fmap_subseteq. by apply leaf_indices_below.
Qed.
End BoxFacts.

(** C4. In a tree constructed from valid boxes, the box of every node
    equals the union of the input boxes of the identifiers held by the
    leaves below it, contains each of them and the box of every node below
    it, and for an internal node equals the union of the boxes of its two
    children. Equality of boxes is [==] on the coordinates. *)
Theorem every_box_is_the_union_of_its_leaves
    this n input_box max_depth boxes_per_leaf t :
  (Z.of_nat n <= INT_MAX)%Z →
  Forall (λ b, valid_box b = true) input_box →
  construct_from_leaf_boxes this n input_box max_depth boxes_per_leaf = Done t →
  ∀ s, s ∈ nodes t → box_is_union input_box s.
Proof.
  intros Hn Hv (_ & _ & a' & H)%construct_from_leaf_boxes_inv.
  apply bounds_box_is_union; [done|].
  eapply construct_recursively_bounds;
    [done|exact H|done|rewrite length_seq; lia|by apply seq_fits_int].
Qed.

Lemma every_box_is_the_union_of_its_leaves_witness :
  ∃ t, construct_from_leaf_boxes empty_tree 4 shuffled_boxes 30 1 = Done t
       ∧ ∀ s, s ∈ nodes t → box_is_union shuffled_boxes s.
Proof.
  eexists. split; [vm_compute; reflexivity|].
  apply (every_box_is_the_union_of_its_leaves empty_tree 4 shuffled_boxes 30 1);
    [vm_compute; discriminate
    |repeat constructor
    |vm_compute; reflexivity].
Defined.

(** ** Two remarks on the hypotheses *)

(** Why boxes are compared with [==]: the two orders in which a node and
    its leaves unite the same boxes may keep zeros of different sign. Here
    the root keeps [+0] as its least y, the union over the leaves keeps
    [-0]; the two boxes are [==] and not identical. *)
Remark unions_may_differ_in_the_sign_of_zero :
  ∃ t, construct_from_leaf_boxes empty_tree 2 signed_zero_boxes 30 1 = Done t
       ∧ box t ≠ union_boxes (leaf_boxes signed_zero_boxes t)
       ∧ box_eqb (box t) (union_boxes (leaf_boxes signed_zero_boxes t)) = true.
Proof.
  eexists. split; [vm_compute; reflexivity|]. split; [|vm_compute; reflexivity].
  intros E.
  apply (f_equal (λ b, (1 / vy (xmin b) <? 0)%float)) in E.
  vm_compute in E. discriminate.
Qed.

(** Why the boxes are required to be finite: the centroid of a box that
    extends from minus to plus infinity is a NaN, which is not [==] to
    itself, and two copies of such a box are split into two leaves. *)
Remark unbounded_identical_boxes_are_split :
  ∃ b c0 c1,
    construct_from_leaf_boxes empty_tree 2 unbounded_boxes 30 1
    = Done (Node b [] [c0; c1])
    ∧ index c0 = [1%Z] ∧ index c1 = [0%Z].
Proof. do 3 eexists. vm_compute. repeat split; reflexivity. Qed.

(** * Further properties of the construction *)

(** ** Inputs that are not split *)

Lemma slice_seq n : slice (seq 0 n) 0 n = seq 0 n.
Proof.
  pose proof (slice_whole (seq 0 n)) as H. by rewrite length_seq in H.
Qed.

(** X1. When [n <= boxes_per_leaf] or [max_depth = 0] the result is one
    leaf, whatever the boxes are: its box is the union of the [n] input
    boxes taken in input order and its [index] is [0..n-1] in order. In
    particular a single box gives a single leaf. *)
Theorem small_or_shallow_input_gives_one_leaf
    this n input_box max_depth boxes_per_leaf :
  1 ≤ n → (Z.of_nat n <= INT_MAX)%Z → 1 ≤ boxes_per_leaf →
  max_depth = 0 ∨ n ≤ boxes_per_leaf →
  construct_from_leaf_boxes this n input_box max_depth boxes_per_leaf
  = Done (Node (union_boxes ((λ k, input_box !!! k) <$> seq 0 n))
            (Z.of_nat <$> seq 0 n) []).
Proof.
  intros Hn1 Hn Hb Hsmall.
  unfold construct_from_leaf_boxes, assert.
  destruct ((1 <=? n) && (0 <? boxes_per_leaf)) eqn:E; [|lia].
  cbn [clear index children].
  destruct n as [|n']; [lia|]. cbn [construct_recursively]. unfold assert.
  change (0 <? S n') with true. cbv iota.
  destruct ((0 =? max_depth) || (S n' <=? boxes_per_leaf)) eqn:Hbase; [|lia].
  cbn [bind]. rewrite slice_box_union by lia.
  rewrite slice_index_slice, slice_seq.
  by rewrite int_of_uint_of_nat_seq.
Qed.

Lemma small_or_shallow_input_gives_one_leaf_witness :
  construct_from_leaf_boxes empty_tree 4 example_boxes 0 1
  = Done (Node (union_boxes ((λ k, example_boxes !!! k) <$> seq 0 4))
            (Z.of_nat <$> seq 0 4) []).
Proof.
  apply (small_or_shallow_input_gives_one_leaf empty_tree 4 example_boxes 0 1);
    [lia|vm_compute; discriminate|lia|left; reflexivity].
Defined.

(** ** A node that is not empty on entry *)

(** X2. [construct_recursively] does not reset the node it works on: called
    on a node that has identifiers and children already, it does what it
    does on an empty node, except that a leaf keeps the old children and an
    internal node keeps the old identifiers. [construct_from_leaf_boxes]
    calls [clear] first, and so its outcome is the same for every earlier
    content of the node. *)
Theorem stale_fields_survive_the_recursion
    input_box max_depth boxes_per_leaf centroid
    fuel this_index this_children current_depth num_indices a off :
  construct_recursively input_box max_depth boxes_per_leaf centroid
    fuel this_index this_children current_depth num_indices a off
  = (run (t, a') <-
       construct_recursively input_box max_depth boxes_per_leaf centroid
         fuel [] [] current_depth num_indices a off in
     Done (with_stale_fields this_index this_children t, a'))
  ∧ ∀ this this' n,
      construct_from_leaf_boxes this n input_box max_depth boxes_per_leaf
      = construct_from_leaf_boxes this' n input_box max_depth boxes_per_leaf.
Proof.
  split; [|done].
  destruct fuel as [|fuel]; cbn [construct_recursively]; unfold assert.
  { by destruct (0 <? num_indices). }
  destruct (0 <? num_indices); [|done].
  destruct ((current_depth =? max_depth) || (num_indices <=? boxes_per_leaf));
    [done|].
  destruct (vec_eqb _ _); [done|].
  destruct (partition _ _ _ _ _ _) as [[i a1]| |]; cbn [bind]; [|done..].
  destruct (uint_of_int i <? Z.of_nat num_indices)%Z; [|done].
  destruct (construct_recursively _ _ _ _ fuel [] [] _ (Z.to_nat i) a1 off)
    as [[c0 a2]| |]; cbn [bind]; [|done..].
  by destruct (construct_recursively _ _ _ _ fuel [] [] _ _ a2 _)
    as [[c1 a3]| |].
Qed.

(** ** Depth, size and the number of nodes *)

Lemma construct_recursively_max_depth input_box boxes_per_leaf centroid
    max_depth max_depth' fuel ti tc d N a off :
  (Z.of_nat N <= INT_MAX)%Z → off + N ≤ length a →
  d + N ≤ max_depth → d + N ≤ max_depth' →
  construct_recursively input_box max_depth boxes_per_leaf centroid
    fuel ti tc d N a off
  = construct_recursively input_box max_depth' boxes_per_leaf centroid
      fuel ti tc d N a off.
Proof.
  revert ti tc d N a off.
  induction fuel as [|fuel IH]; intros ti tc d N a off HN Hlen Hd Hd'; [done|].
  cbn [construct_recursively]. unfold assert.
  destruct (0 <? N) eqn:HN0; [|done].
  replace (d =? max_depth) with false by lia.
  replace (d =? max_depth') with false by lia.
  destruct (false || (N <=? boxes_per_leaf)); [done|].
  destruct (vec_eqb _ _); [done|].
  destruct (partition _ _ _ _ _ _) as [[i a1]| |] eqn:Hp; cbn [bind]; [|done..].
  apply partition_spec in Hp as (Hi & _ & Hl1 & _); [|done|lia|done].
  rewrite uint_of_int_small by lia.
  destruct (i <? Z.of_nat N)%Z eqn:HiN; [|done].
  rewrite (IH [] [] (d + 1) (Z.to_nat i) a1 off) by lia.
  destruct (construct_recursively _ max_depth' _ _ fuel [] [] _ (Z.to_nat i) a1 off)
    as [[c0 a2]| |] eqn:H0; cbn [bind]; [|done..].
  pose proof (construct_recursively_inv _ _ _ _ _ _ _ _ _ _ _ _ _ H0) as [Hi0 _].
  apply construct_recursively_frame in H0 as (_ & Hl2 & _); [|lia..].
  by rewrite (IH [] [] (d + 1) (N - Z.to_nat i) a2 (off + Z.to_nat i)) by lia.
Qed.

(** X3. [max_depth] is only a cap: every value of at least [n] gives the
    same outcome, since each level of the recursion removes at least one
    identifier from the slice. *)
Theorem max_depth_of_at_least_n_makes_no_difference
    this n input_box max_depth max_depth' boxes_per_leaf :
  (Z.of_nat n <= INT_MAX)%Z → n ≤ max_depth → n ≤ max_depth' →
  construct_from_leaf_boxes this n input_box max_depth boxes_per_leaf
  = construct_from_leaf_boxes this n input_box max_depth' boxes_per_leaf.
Proof.
  intros Hn Hd Hd'. unfold construct_from_leaf_boxes.
  by rewrite (construct_recursively_max_depth input_box boxes_per_leaf
                (global_centroid n input_box) max_depth max_depth')
    by (rewrite ?length_seq; lia).
Qed.

Lemma max_depth_of_at_least_n_makes_no_difference_witness :
  construct_from_leaf_boxes empty_tree 4 example_boxes 4 1
  = construct_from_leaf_boxes empty_tree 4 example_boxes 30 1.
Proof.
  apply (max_depth_of_at_least_n_makes_no_difference
           empty_tree 4 example_boxes 4 30 1);
    [vm_compute; discriminate|lia|lia].
Defined.

Lemma leaf_count_pair b idx c0 c1 :
  leaf_count (Node b idx [c0; c1]) = leaf_count c0 + leaf_count c1.
Proof. cbn. lia. Qed.

Section Counting.
Variables (input_box : list BoundingBox) (max_depth boxes_per_leaf : nat).
Variables (centroid : list Vec3d).

Local Abbreviation build :=
  (construct_recursively input_box max_depth boxes_per_leaf centroid).

Lemma leaf_indices_length fuel ti d N a off t a' :
  build fuel ti [] d N a off = Done (t, a') →
  (Z.of_nat N <= INT_MAX)%Z → off + N ≤ length a →
  length (leaf_indices t) = N.
Proof.
  intros H HN Hlen.
  rewrite (construct_recursively_leaves _ _ _ _ _ _ _ _ _ _ _ _ H HN Hlen).
  unfold slice_index. by rewrite length_map, length_seq.
Qed.

Lemma construct_recursively_count fuel d N a off t a' :
  build fuel [] [] d N a off = Done (t, a') →
  (Z.of_nat N <= INT_MAX)%Z → off + N ≤ length a →
  length (nodes t) + 1 = 2 * leaf_count t ∧ 1 ≤ leaf_count t ≤ N.
Proof.
  revert d N a off t a'.
  induction fuel as [|fuel IH]; intros d N a off t a' H HN Hlen.
  { by destruct N. }
  apply construct_recursively_inv in H as [HN0 H].
  destruct H as [(_ & -> & ->)|(_ & _ & _ & f & i & a1 & c0 & a2 & c1 & Hf & Hp & Hi & H0 & H1 & ->)].
  { cbn. lia. }
  injection Hf as <-.
  apply partition_spec in Hp as (Hi' & _ & Hl1 & _); [|done..].
  rewrite uint_of_int_small in Hi by lia.
  pose proof (construct_recursively_frame _ _ _ _ _ _ _ _ _ _ _ _ _ H0 ltac:(lia) ltac:(lia))
    as (_ & Hl2 & _).
  apply IH in H0 as (Hn0 & Hc0); [|lia..].
  apply IH in H1 as (Hn1 & Hc1); [|lia..].
  rewrite nodes_pair, leaf_count_pair. cbn [length].
  rewrite length_app. lia.
Qed.

Lemma construct_recursively_depth fuel d N a off t a' :
  build fuel [] [] d N a off = Done (t, a') →
  (Z.of_nat N <= INT_MAX)%Z → off + N ≤ length a →
  ∀ d' s, (d', s) ∈ nodes_from d t →
    1 ≤ length (leaf_indices s) ∧ d' + length (leaf_indices s) ≤ d + N.
Proof.
  revert d N a off t a'.
  induction fuel as [|fuel IH]; intros d N a off t a' H HN Hlen.
  { by destruct N. }
  pose proof (leaf_indices_length _ _ _ _ _ _ _ _ H HN Hlen) as Hroot.
  apply construct_recursively_inv in H as [HN0 H].
  destruct H as [(_ & -> & ->)|(_ & _ & _ & f & i & a1 & c0 & a2 & c1 & Hf & Hp & Hi & H0 & H1 & ->)].
  { intros d' s [= -> ->]%list_elem_of_singleton. lia. }
  injection Hf as <-.
  apply partition_spec in Hp as (Hi' & _ & Hl1 & _); [|done..].
  rewrite uint_of_int_small in Hi by lia.
  pose proof (construct_recursively_frame _ _ _ _ _ _ _ _ _ _ _ _ _ H0 ltac:(lia) ltac:(lia))
    as (_ & Hl2 & _).
  pose proof (construct_recursively_inv _ _ _ _ _ _ _ _ _ _ _ _ _ H0) as [Hi0 _].
  pose proof (construct_recursively_inv _ _ _ _ _ _ _ _ _ _ _ _ _ H1) as [Hi1 _].
  rewrite Nat.add_1_r in H0, H1.
  intros d' s. rewrite nodes_from_pair, elem_of_cons, elem_of_app.
  intros [[= -> ->]|[Hs|Hs]]; [lia| |].
  - destruct (IH _ _ _ _ _ _ H0 ltac:(lia) ltac:(lia) _ _ Hs). lia.
  - destruct (IH _ _ _ _ _ _ H1 ltac:(lia) ltac:(lia) _ _ Hs). lia.
Qed.
End Counting.

(** X4. A constructed tree over [n] boxes has at most [n] leaves and, being
    binary, one node less than twice its leaves: at most [2n - 1] nodes. *)
Theorem a_tree_has_at_most_2n_minus_1_nodes
    this n input_box max_depth boxes_per_leaf t :
  (Z.of_nat n <= INT_MAX)%Z →
  construct_from_leaf_boxes this n input_box max_depth boxes_per_leaf = Done t →
  length (nodes t) + 1 = 2 * leaf_count t
  ∧ 1 ≤ leaf_count t ≤ n
  ∧ length (nodes t) ≤ 2 * n - 1.
Proof.
  intros Hn (_ & _ & a' & H)%construct_from_leaf_boxes_inv.
  apply construct_recursively_count in H; [|done|rewrite length_seq; lia].
  lia.
Qed.

Lemma a_tree_has_at_most_2n_minus_1_nodes_witness :
  ∃ t, construct_from_leaf_boxes empty_tree 4 example_boxes 30 1 = Done t
       ∧ length (nodes t) + 1 = 2 * leaf_count t
       ∧ 1 ≤ leaf_count t ≤ 4
       ∧ length (nodes t) ≤ 2 * 4 - 1.
Proof.
  eexists. split; [vm_compute; reflexivity|].
  apply (a_tree_has_at_most_2n_minus_1_nodes empty_tree 4 example_boxes 30 1);
    [vm_compute; discriminate|vm_compute; reflexivity].
Defined.

(** X5. Every node holds at least one identifier below it, and its depth
    plus the number of these identifiers is at most [n]: no node lies
    deeper than [n - 1], whatever [max_depth] is. *)
Theorem depth_plus_size_is_at_most_n
    this n input_box max_depth boxes_per_leaf t :
  (Z.of_nat n <= INT_MAX)%Z →
  construct_from_leaf_boxes this n input_box max_depth boxes_per_leaf = Done t →
  ∀ d s, (d, s) ∈ nodes_from 0 t →
    1 ≤ length (leaf_indices s) ∧ d + length (leaf_indices s) ≤ n.
Proof.
  intros Hn (_ & _ & a' & H)%construct_from_leaf_boxes_inv d s Hs.
  eapply construct_recursively_depth in H; [|done|rewrite length_seq; lia|done].
  lia.
Qed.

Lemma depth_plus_size_is_at_most_n_witness :
  ∃ t, construct_from_leaf_boxes empty_tree 4 example_boxes 30 1 = Done t
       ∧ ∀ d s, (d, s) ∈ nodes_from 0 t →
           1 ≤ length (leaf_indices s) ∧ d + length (leaf_indices s) ≤ 4.
Proof.
  eexists. split; [vm_compute; reflexivity|].
  apply (depth_plus_size_is_at_most_n empty_tree 4 example_boxes 30 1);
    [vm_compute; discriminate|vm_compute; reflexivity].
Defined.

(** ** The two children of a node are separated *)

Lemma select_axis_lt_3 cb : select_axis cb < 3.
Proof.
  unfold select_axis. cbn [fold_left].
  repeat match goal with |- context [if ?b then _ else _] => destruct b end; lia.
Qed.

Lemma elem_of_slice a off N x :
  x ∈ slice a off N ↔ ∃ k, k < N ∧ x = local a off k.
Proof.
  unfold slice. change (map (local a off) (seq 0 N)) with (local a off <$> seq 0 N).
  rewrite list_elem_of_fmap. split.
  - intros (k & -> & Hk%elem_of_seq). exists k. split; [lia|done].
  - intros (k & Hk & ->). exists k. split; [done|]. apply elem_of_seq. lia.
Qed.


Section Separation.
Variables (input_box : list BoundingBox) (max_depth boxes_per_leaf : nat).
Variables (centroid : list Vec3d).

Local Abbreviation build :=
  (construct_recursively input_box max_depth boxes_per_leaf centroid).

End Separation.



(** The condition on the split value cannot be dropped. The boxes of
    [overflowing_boxes] have finite coordinates, but two of the centroids
    are [+inf] and [-inf] and their mean is a NaN; lines 116-117 keep it
    (both comparisons fail), every test of the partition loop fails, and the
    loop swaps its way to the middle: identifier 3, with centroid 1, ends
    below the first child and identifier 1, with centroid [-inf], below the
    second. *)
Remark a_nan_split_value_separates_nothing :
  let centroid := global_centroid 4 overflowing_boxes in
  Forall (λ b, valid_box b = true) overflowing_boxes
  ∧ is_nan (slice_split centroid (seq 0 4) 0 4) = true
  ∧ ∃ t c0 c1,
      construct_from_leaf_boxes empty_tree 4 overflowing_boxes 30 1 = Done t
      ∧ children t = [c0; c1]
      ∧ leaf_indices c0 = [2%Z; 3%Z] ∧ leaf_indices c1 = [0%Z; 1%Z]
      ∧ (vnth (centroid !!! 1%nat) 0%nat <? vnth (centroid !!! 3%nat) 0%nat)%float
        = true.
Proof.
  split; [repeat constructor|]. split; [vm_compute; reflexivity|].
  eexists _, _, _. split; [vm_compute; reflexivity|].
  cbn [children]. split; [reflexivity|]. vm_compute. done.
Qed.

(** ** The box of the root *)

(** X7. The box of the root is the union of the [n] input boxes taken in
    input order, for any boxes; when the boxes are valid it contains each of
    them. *)
Theorem root_box_is_the_union_of_the_input
    this n input_box max_depth boxes_per_leaf t :
  construct_from_leaf_boxes this n input_box max_depth boxes_per_leaf = Done t →
  box t = union_boxes ((λ k, input_box !!! k) <$> seq 0 n)
  ∧ (Forall (λ b, valid_box b = true) input_box →
     ∀ k, k < n → box_contains (box t) (input_box !!! k) = true).
Proof.
  intros (Hn & _ & a' & H)%construct_from_leaf_boxes_inv.
  apply construct_recursively_inv in H as [_ H].
  assert (box t = slice_box input_box (seq 0 n) 0 n) as ->.
  { by destruct H as [(_ & -> & _)|(_ & _ & _ & ? & ? & ? & ? & ? & ? & _ & _ & _ & _ & _ & ->)]. }
  rewrite slice_box_union, slice_seq by lia. split; [done|].
  intros Hv k Hk. eapply bounds_contains_elem.
  - apply union_bounds; [|by apply (valid_reads input_box id)].
    intros E%(f_equal length). rewrite length_fmap, length_seq in E.
    cbn in E. lia.
  - apply (list_elem_of_fmap_2 (λ k, input_box !!! k)), elem_of_seq. lia.
Qed.

Lemma root_box_is_the_union_of_the_input_witness :
  ∃ t, construct_from_leaf_boxes empty_tree 4 shuffled_boxes 30 1 = Done t
       ∧ box t = union_boxes ((λ k, shuffled_boxes !!! k) <$> seq 0 4)
       ∧ (Forall (λ b, valid_box b = true) shuffled_boxes →
          ∀ k, k < 4 → box_contains (box t) (shuffled_boxes !!! k) = true).
Proof.
  eexists. split; [vm_compute; reflexivity|].
  apply (root_box_is_the_union_of_the_input empty_tree 4 shuffled_boxes 30 1).
  vm_compute. reflexivity.
Defined.

(** ** The partition on a slice that is split already *)

Section PartitionOfSplitSlice.
Variables (centroid : list Vec3d) (axis : nat) (split : float).
Variables (off N : nat).
Hypothesis HN : (Z.of_nat N <= INT_MAX)%Z.

Local Abbreviation key_at := (key centroid axis off).

Lemma partition_of_split_slice a i :
  0 < N → (0 <= i <= Z.of_nat N)%Z →
  (∀ k, (0 <= k < i)%Z → (key_at a k <=? split)%float = true) →
  (∀ k, (i <= k < Z.of_nat N)%Z → (split <? key_at a k)%float = true) →
  partition centroid axis split off N a = Done (i, a).
Proof.
  intros HN0 Hi Hlo Hhi. unfold partition.
  rewrite int_of_uint_small by lia.
  cbn [partition_loop].
  destruct (scan_up_total centroid axis split off N HN (S N) a 0 ltac:(lia) ltac:(lia))
    as [i1 Hup].
  destruct (scan_down_total centroid axis split off N (S N) a (Z.of_nat N - 1)%Z
              ltac:(lia) ltac:(lia)) as [j1 Hdown].
  rewrite Hup, Hdown. cbn [bind].
  apply scan_up_spec in Hup as (Hi1 & Hle & Hupx); [|done|lia].
  apply (scan_down_spec _ _ _ _ N) in Hdown as (Hj1 & Hgt & Hdownx); [|lia].
  assert (i1 = i) as ->.
  { destruct (Z.lt_trichotomy i1 i) as [Hlt|[->|Hgt']]; [|done|].
    - rewrite Hlo in Hupx by lia. discriminate Hupx. lia.
    - specialize (Hle i ltac:(lia)). specialize (Hhi i ltac:(lia)).
      apply leb_not_gt in Hle. congruence. }
  assert (j1 = i - 1)%Z as ->.
  { destruct (Z.lt_trichotomy j1 (i - 1)) as [Hlt|[->|Hgt']]; [|done|].
    - specialize (Hgt (i - 1)%Z ltac:(lia)). specialize (Hlo (i - 1)%Z ltac:(lia)).
      apply leb_not_gt in Hlo. congruence.
    - rewrite Hhi in Hdownx by lia. discriminate Hdownx. lia. }
  by replace (i <? i - 1)%Z with false by lia.
Qed.
End PartitionOfSplitSlice.

(** X8. A slice that is split already, with the centroids at most [split]
    in front and the centroids above [split] behind them, is left as it is,
    and the boundary returned is the place where the two groups meet. In
    particular the boundary is [num_indices] when no centroid is above
    [split], and [0] when every centroid is. *)
Theorem partition_leaves_a_split_slice_alone
    centroid axis split off N a m :
  0 < N → (Z.of_nat N <= INT_MAX)%Z → m ≤ N →
  (∀ k, k < m →
     (vnth (centroid !!! local a off k) axis <=? split)%float = true) →
  (∀ k, m ≤ k < N →
     (split <? vnth (centroid !!! local a off k) axis)%float = true) →
  partition centroid axis split off N a = Done (Z.of_nat m, a).
Proof.
  intros HN0 HN Hm Hlo Hhi.
  apply partition_of_split_slice; [done..|lia| |].
  - intros k Hk. unfold key. apply Hlo. lia.
  - intros k Hk. unfold key. apply Hhi. lia.
Qed.

Lemma partition_leaves_a_split_slice_alone_witness :
  partition (global_centroid 4 example_boxes) 0 5.5 0 4 (seq 0 4)
  = Done (Z.of_nat 2, seq 0 4).
Proof.
  apply (partition_leaves_a_split_slice_alone
           (global_centroid 4 example_boxes) 0 5.5 0 4 (seq 0 4) 2);
    [lia|vm_compute; discriminate|lia| |].
  - intros [|[|k]] Hk; [vm_compute; reflexivity..|lia].
  - intros [|[|[|[|k]]]] Hk; try lia; vm_compute; reflexivity.
Defined.

(** X9. Partitioning twice is partitioning once: on the array it returned,
    the partition returns the same boundary and changes nothing, as long as
    neither the split value nor a centroid of the slice is a NaN. *)
Theorem partition_is_idempotent centroid axis split off N a i a' :
  0 < N → (Z.of_nat N <= INT_MAX)%Z → off + N ≤ length a →
  is_nan split = false →
  (∀ k, k < N → is_nan (vnth (centroid !!! local a off k) axis) = false) →
  partition centroid axis split off N a = Done (i, a') →
  partition centroid axis split off N a' = Done (i, a').
Proof.
  intros HN0 HN Hlen Hsplit Hnan H.
  apply partition_spec in H as (Hi & Hp & Hl & Hfr & Hlo & Hhi); [|done..].
  assert (∀ k, k < N → is_nan (vnth (centroid !!! local a' off k) axis) = false)
    as Hnan'.
  { intros k Hk.
    assert (local a' off k ∈ slice a off N) as Hin.
    { rewrite <- (slice_perm a a' off N) by done.
      apply elem_of_slice. eauto. }
    apply elem_of_slice in Hin as (k' & Hk' & ->). by apply Hnan. }
  apply partition_of_split_slice; [done..| |].
  - intros k Hk. specialize (Hlo k Hk).
    specialize (Hnan' (Z.to_nat k) ltac:(lia)). unfold key in *.
    clear -Hlo Hnan' Hsplit. float_order.
  - intros k Hk. specialize (Hhi k Hk).
    specialize (Hnan' (Z.to_nat k) ltac:(lia)). unfold key in *.
    clear -Hhi Hnan' Hsplit. float_order.
Qed.

Lemma partition_is_idempotent_witness :
  partition (global_centroid 4 shuffled_boxes) 0 5.5 0 4 [2; 1; 0; 3]
  = Done (2%Z, [2; 1; 0; 3]).
Proof.
  apply (partition_is_idempotent
           (global_centroid 4 shuffled_boxes) 0 5.5 0 4 (seq 0 4) 2 [2; 1; 0; 3]);
    [lia|vm_compute; discriminate|cbn; lia|vm_compute; reflexivity|
    |vm_compute; reflexivity].
  intros [|[|[|[|k]]]] Hk; try lia; vm_compute; reflexivity.
Defined.

(** ** When the build stops at an assertion *)

(** X10. The build stops at an assertion whenever it attempts a split of the
    root slice ([max_depth] is not 0, [n > boxes_per_leaf], the centroids do
    not coincide) and the split value is not below the largest centroid on
    the chosen axis: every centroid is then at most the split value, the
    partition returns [i = num_indices], and line 134 fails. *)
Theorem a_split_value_above_every_centroid_stops_the_build
    this n input_box max_depth boxes_per_leaf :
  1 ≤ boxes_per_leaf < n → (Z.of_nat n <= INT_MAX)%Z → max_depth ≠ 0 →
  centroids_coincide (global_centroid n input_box) (seq 0 n) 0 n = false →
  (∀ k, k < n →
     (vnth (global_centroid n input_box !!! k)
           (slice_axis (global_centroid n input_box) (seq 0 n) 0 n)
        <=? slice_split (global_centroid n input_box) (seq 0 n) 0 n)%float
     = true) →
  construct_from_leaf_boxes this n input_box max_depth boxes_per_leaf
  = AssertionFailed.
Proof.
  intros Hb Hn Hd Hco Hall.
  unfold construct_from_leaf_boxes, assert.
  destruct ((1 <=? n) && (0 <? boxes_per_leaf)) eqn:E; [|lia].
  cbn [clear index children].
  destruct n as [|n']; [lia|]. cbn [construct_recursively]. unfold assert.
  change (0 <? S n') with true. cbv iota.
  destruct ((0 =? max_depth) || (S n' <=? boxes_per_leaf)) eqn:Hbase; [lia|].
  fold (centroids_coincide (global_centroid (S n') input_box) (seq 0 (S n')) 0 (S n')).
  rewrite Hco.
  fold (slice_axis (global_centroid (S n') input_box) (seq 0 (S n')) 0 (S n')).
  fold (slice_split (global_centroid (S n') input_box) (seq 0 (S n')) 0 (S n')).
  rewrite (partition_of_split_slice _ _ _ _ _ Hn _ (Z.of_nat (S n')));
    [|lia|lia| |intros; lia].
  - cbn [bind]. rewrite uint_of_int_small by lia.
    by replace (Z.of_nat (S n') <? Z.of_nat (S n'))%Z with false by lia.
  - intros k Hk. unfold key. rewrite local_seq by lia. apply Hall. lia.
Qed.

Lemma a_split_value_above_every_centroid_stops_the_build_witness :
  construct_from_leaf_boxes empty_tree 2 adjacent_boxes 30 1 = AssertionFailed.
Proof.
  apply (a_split_value_above_every_centroid_stops_the_build
           empty_tree 2 adjacent_boxes 30 1);
    [lia|vm_compute; discriminate|lia|vm_compute; reflexivity|].
  intros [|[|k]] Hk; [vm_compute; reflexivity..|lia].
Defined.

(** * Ownership *)

(** ** Stores and shapes *)

#[local] Set Warnings "-clear-no-such-hyp".

Lemma update_Finished (h : store) p f c :
  h !! p = Some c → update h p f = Finished (<[p := f c]> h).
Proof. intros H. unfold update. by rewrite H. Qed.

Lemma shape_facts :
  (∀ h p t L, shape h p t L →
     p ∈ L ∧ (null ∉ L) ∧ (∀ q, q ∈ L → is_Some (h !! q))
     ∧ (size L = length (nodes t)))
  ∧ (∀ h cs ts Ls, shapes h cs ts Ls →
       (null ∉ Ls) ∧ (∀ q, q ∈ Ls → is_Some (h !! q))
       ∧ (size Ls = length (flat_map nodes ts))).
Proof.
  apply shape_shapes_ind.
  - intros h p b idx cs ts Ls Hp Hh _ (Hnull & Hdom & Hsize) HpLs.
    split; [set_solver|]. split; [set_solver|]. split.
    + intros q [->%elem_of_singleton|Hq]%elem_of_union; [by eexists|auto].
    + rewrite size_union by set_solver. rewrite size_singleton, Hsize. done.
  - intros h. split; [set_solver|]. split; [set_solver|done].
  - intros h c cs t ts L Ls _ (Hc & Hnull & Hdom & Hsize) _ (Hnulls & Hdoms & Hsizes) Hdisj.
    split; [set_solver|]. split.
    + intros q [Hq|Hq]%elem_of_union; auto.
    + rewrite size_union by done. cbn [flat_map]. rewrite length_app. lia.
Qed.

Lemma shape_frame :
  (∀ h p t L, shape h p t L →
     ∀ h', (∀ q, q ∈ L → h' !! q = h !! q) → shape h' p t L)
  ∧ (∀ h cs ts Ls, shapes h cs ts Ls →
       ∀ h', (∀ q, q ∈ Ls → h' !! q = h !! q) → shapes h' cs ts Ls).
Proof.
  apply shape_shapes_ind.
  - intros h p b idx cs ts Ls Hp Hh _ IH HpLs h' Hsame.
    apply (shape_node h' p b idx cs ts Ls); [done| |apply IH|done].
    + rewrite Hsame; [done|set_solver].
    + intros q Hq. apply Hsame. set_solver.
  - intros h h' _. constructor.
  - intros h c cs t ts L Ls _ IH _ IHs Hdisj h' Hsame.
    constructor; [apply IH|apply IHs|done]; intros q Hq; apply Hsame; set_solver.
Qed.

(** ** [clear] *)

Lemma clear_at_spec fuel h p t L :
  shape h p t L → size L ≤ fuel →
  ∃ h', clear_at fuel h p = Finished h'
        ∧ h' !! p = Some (Cell (box t) [] [])
        ∧ ∀ q, q ≠ p → h' !! q = if decide (q ∈ L) then None else h !! q.
Proof.
  revert h p t L. induction fuel as [|fuel IH]; intros h p t L Hshape Hfuel.
  { destruct shape_facts as [Hf _]. destruct (Hf _ _ _ _ Hshape) as (Hp & _).
    assert (size L ≠ 0); [|lia]. apply size_non_empty_iff. set_solver. }
  inversion Hshape as [h_ p_ b idx cs ts Ls Hp Hh Hcs HpLs]; subst.
  rewrite size_union, size_singleton in Hfuel by set_solver.
  cbn [clear_at]. rewrite (update_Finished _ _ _ _ Hh). cbn [and_then].
  rewrite lookup_insert_eq. cbn [cell_box cell_children].
  set (h1 := <[p := Cell b [] cs]> h).
  assert (∀ h1, (∀ q, q ∈ Ls → h1 !! q = h !! q) →
            ∃ h2,
              delete_all
                (λ h child,
                   if child =? null then Finished h
                   else exec h <- clear_at fuel h child in
                        Finished (delete child h)) cs h1 = Finished h2
              ∧ ∀ q, h2 !! q = if decide (q ∈ Ls) then None else h1 !! q)
    as Hloop.
  { assert (size Ls ≤ fuel) as HLs by lia. clear Hshape Hh HpLs Hfuel h1.
    induction Hcs as [h|h c cs t ts L Ls Hc Hcs IHcs Hdisj]; intros h1 Hsame.
    - exists h1. split; [done|]. intros q. by rewrite decide_False by set_solver.
    - rewrite size_union in HLs by done.
      destruct shape_frame as [Hfr _].
      pose proof (Hfr _ _ _ _ Hc h1 ltac:(intros; apply Hsame; set_solver)) as Hc1.
      destruct shape_facts as [Hf _].
      destruct (Hf _ _ _ _ Hc1) as (HcL & HnullL & _).
      destruct (IH _ _ _ _ Hc1 ltac:(lia)) as (h1' & Hclear & _ & Hrest).
      destruct (IHcs ltac:(lia) (delete c h1')) as (h2 & Hloop & Hspec).
      { intros q Hq. assert (q ≠ c) by set_solver.
        rewrite lookup_delete_ne, Hrest by done.
        rewrite decide_False by set_solver. apply Hsame. set_solver. }
      exists h2. split.
      + unfold delete_all in *. cbn [fold_left and_then].
        assert (c ≠ null) as Hcnull by (by intros ->).
        destruct (Nat.eqb_spec c null); [done|]. by rewrite Hclear.
      + intros q. rewrite Hspec.
        destruct (decide (q ∈ Ls)); [by rewrite decide_True by set_solver|].
        destruct (decide (q = c)) as [->|Hqc].
        * rewrite lookup_delete_eq. by rewrite decide_True by set_solver.
        * rewrite lookup_delete_ne, Hrest by done.
          destruct (decide (q ∈ L)); [by rewrite decide_True by set_solver|].
          by rewrite decide_False by set_solver. }
  destruct (Hloop h1) as (h2 & -> & Hspec).
  { intros q Hq. unfold h1. rewrite lookup_insert_ne; [done|set_solver]. }
  cbn [and_then].
  assert (h2 !! p = Some (Cell b [] cs)) as Hp2.
  { rewrite Hspec, decide_False by done. unfold h1. by rewrite lookup_insert_eq. }
  rewrite (update_Finished _ _ _ _ Hp2). cbn [cell_box cell_index box].
  eexists. split; [done|]. split; [by rewrite lookup_insert_eq|].
  intros q Hq. rewrite lookup_insert_ne, Hspec by done.
  unfold h1. rewrite lookup_insert_ne by done.
  destruct (decide (q ∈ Ls)).
  - by rewrite decide_True by set_solver.
  - by rewrite decide_False by set_solver.
Qed.

(** ** [construct_recursively] in the store *)

Lemma new_node_spec fresh_box (h : store) :
  h !! (new_node fresh_box h).1 = None
  ∧ (new_node fresh_box h).1 ≠ null
  ∧ (new_node fresh_box h).2
    = <[(new_node fresh_box h).1 := Cell fresh_box [] []]> h.
Proof.
  unfold new_node. cbn [fst snd].
  pose proof (is_fresh (dom h ∪ {[null]})) as Hfresh.
  split; [apply not_elem_of_dom; set_solver|]. split; [set_solver|done].
Qed.

Section Refinement.
Variables (input_box : list BoundingBox) (max_depth boxes_per_leaf : nat).
Variables (centroid : list Vec3d) (fresh_box : BoundingBox).

Local Abbreviation build :=
  (construct_recursively input_box max_depth boxes_per_leaf centroid).
Local Abbreviation build_at :=
  (construct_recursively_at input_box max_depth boxes_per_leaf centroid
     fresh_box).

(** On a node without identifiers and children the run in the store ends as
    the run on trees does; when it returns, the store holds the tree in the
    node's own cell and in cells that were not in use, and no other cell has
    changed. *)
Lemma construct_recursively_at_refines fuel h p d N a off b0 :
  h !! p = Some (Cell b0 [] []) → p ≠ null →
  match build fuel [] [] d N a off with
  | Done (t, a') =>
      ∃ h' L, build_at fuel h p d N a off = Finished (h', a')
              ∧ shape h' p t L
              ∧ (∀ q, q ∈ L → q = p ∨ h !! q = None)
              ∧ (∀ q, q ∉ L → h' !! q = h !! q)
  | AssertionFailed => build_at fuel h p d N a off = AssertionStop
  | OutOfFuel => build_at fuel h p d N a off = FuelOut
  end.
Proof.
  revert h p d N a off b0.
  induction fuel as [|fuel IH]; intros h p d N a off b0 Hp Hnull.
  { by destruct N. }
  cbn [construct_recursively construct_recursively_at].
  unfold assert, centroids_coincide, slice_axis, slice_split. cbv zeta.
  destruct (0 <? N); [|done]. cbn [negb].
  rewrite (update_Finished _ _ _ _ Hp). cbn [and_then cell_index cell_children].
  set (bx := slice_box input_box a off N).
  set (h1 := <[p := Cell bx [] []]> h).
  assert (h1 !! p = Some (Cell bx [] [])) as Hp1 by apply lookup_insert_eq.
  assert (∃ h' L,
            (exec h0 <- update h1 p
               (λ c, Cell (cell_box c) (slice_index a off N) (cell_children c)) in
             Finished (h0, a)) = Finished (h', a)
            ∧ shape h' p (Node bx (slice_index a off N) []) L
            ∧ (∀ q, q ∈ L → q = p ∨ h !! q = None)
            ∧ (∀ q, q ∉ L → h' !! q = h !! q)) as Hleaf.
  { rewrite (update_Finished _ _ _ _ Hp1). cbn [and_then cell_box cell_children].
    eexists _, ({[p]} ∪ ∅). split; [done|]. split; [|split].
    - apply shape_node with []; [done|apply lookup_insert_eq|constructor|set_solver].
    - intros q Hq. left. set_solver.
    - intros q Hq. unfold h1. rewrite !lookup_insert_ne by set_solver. done. }
  destruct ((d =? max_depth) || (N <=? boxes_per_leaf)); [exact Hleaf|].
  destruct (vec_eqb _ _); [exact Hleaf|]. clear Hleaf.
  destruct (partition _ _ _ _ _ _) as [[i a1]| |]; cbn [bind of_outcome and_then];
    [|done..].
  destruct (uint_of_int i <? Z.of_nat N)%Z; [|done]. cbn [negb].
  rewrite (update_Finished _ _ _ _ Hp1).
  cbn [and_then cell_box cell_index cell_children resize].
  change (replicate 2 null) with [null; null].
  set (h2 := <[p := Cell bx [] [null; null]]> h1).
  destruct (new_node_spec fresh_box h2) as (Hl0 & Hl0null & Hh3).
  destruct (new_node fresh_box h2) as [l0 h3]. cbn [fst snd] in *. subst h3.
  assert (l0 ≠ p) as Hl0p.
  { intros ->. unfold h2 in Hl0. by rewrite lookup_insert_eq in Hl0. }
  assert (h !! l0 = None) as Hl0h.
  { unfold h2, h1 in Hl0. by rewrite !lookup_insert_ne in Hl0. }
  rewrite (update_Finished _ _ _ (Cell bx [] [null; null]))
    by (rewrite lookup_insert_ne by done; apply lookup_insert_eq).
  cbn [and_then cell_box cell_index cell_children list_insert insert].
  set (h4 := <[p := Cell bx [] [l0; null]]> (<[l0 := Cell fresh_box [] []]> h2)).
  assert (h4 !! l0 = Some (Cell fresh_box [] [])) as Hl04.
  { unfold h4. rewrite lookup_insert_ne by done. apply lookup_insert_eq. }
  specialize (IH h4 l0 (d + 1) (Z.to_nat i) a1 off fresh_box Hl04 Hl0null) as IH0.
  destruct (build fuel [] [] (d + 1) (Z.to_nat i) a1 off) as [[c0 a2]| |];
    cbn [bind]; [|by rewrite IH0..].
  destruct IH0 as (h5 & L0 & -> & Hshape0 & Hfresh0 & Hframe0).
  cbn [and_then].
  destruct shape_facts as [Hfacts _].
  destruct (Hfacts _ _ _ _ Hshape0) as (Hl0L0 & HnullL0 & HdomL0 & _).
  assert (p ∉ L0) as HpL0.
  { intros [->|Hq]%Hfresh0; [done|]. unfold h4 in Hq.
    by rewrite lookup_insert_eq in Hq. }
  assert (h5 !! p = Some (Cell bx [] [l0; null])) as Hp5.
  { rewrite Hframe0 by done. apply lookup_insert_eq. }
  destruct (new_node_spec fresh_box h5) as (Hl1 & Hl1null & Hh6).
  destruct (new_node fresh_box h5) as [l1 h6]. cbn [fst snd] in *. subst h6.
  assert (l1 ≠ p) as Hl1p by (intros ->; congruence).
  assert (l1 ∉ L0) as Hl1L0.
  { intros Hq%HdomL0. rewrite Hl1 in Hq. by destruct Hq. }
  rewrite (update_Finished _ _ _ (Cell bx [] [l0; null]))
    by (by rewrite lookup_insert_ne by done).
  cbn [and_then cell_box cell_index cell_children list_insert insert].
  set (h7 := <[p := Cell bx [] [l0; l1]]> (<[l1 := Cell fresh_box [] []]> h5)).
  assert (h7 !! l1 = Some (Cell fresh_box [] [])) as Hl17.
  { unfold h7. rewrite lookup_insert_ne by done. apply lookup_insert_eq. }
  specialize (IH h7 l1 (d + 1) (N - Z.to_nat i) a2 (off + Z.to_nat i)
                fresh_box Hl17 Hl1null) as IH1.
  destruct (build fuel [] [] (d + 1) (N - Z.to_nat i) a2 (off + Z.to_nat i))
    as [[c1 a3]| |]; cbn [bind]; [|by rewrite IH1..].
  destruct IH1 as (h8 & L1 & -> & Hshape1 & Hfresh1 & Hframe1).
  cbn [and_then].
  destruct (Hfacts _ _ _ _ Hshape1) as (Hl1L1 & HnullL1 & HdomL1 & _).
  assert (∀ q, q ≠ l1 → q ≠ p → h7 !! q = h5 !! q) as H75.
  { intros q ? ?. unfold h7. by rewrite !lookup_insert_ne. }
  assert (∀ q, q ≠ l0 → q ≠ p → h4 !! q = h !! q) as H40.
  { intros q ? ?. unfold h4, h2, h1. by rewrite !lookup_insert_ne. }
  assert (p ∉ L1) as HpL1.
  { intros [->|Hq]%Hfresh1; [done|]. unfold h7 in Hq.
    by rewrite lookup_insert_eq in Hq. }
  assert (L0 ## L1) as Hdisj.
  { intros q Hq0 Hq1. destruct (Hfresh1 q Hq1) as [->|Hq7]; [done|].
    rewrite H75 in Hq7 by set_solver.
    destruct (HdomL0 q Hq0) as [? Hq5]. congruence. }
  exists h8, ({[p]} ∪ (L0 ∪ (L1 ∪ ∅))). split; [done|]. split; [|split].
  - apply shape_node with [l0; l1]; [done| | |set_solver].
    + rewrite Hframe1 by done. apply lookup_insert_eq.
    + constructor; [|constructor; [done|constructor|set_solver]|set_solver].
      destruct shape_frame as [Hfr _]. apply (Hfr _ _ _ _ Hshape0).
      intros q Hq. rewrite Hframe1 by set_solver. apply H75; set_solver.
  - intros q Hq. destruct (decide (q = p)) as [|Hqp]; [by left|]. right.
    assert (q ∈ L0 ∨ q ∈ L1) as [Hq0|Hq1] by set_solver.
    + destruct (Hfresh0 q Hq0) as [->|Hq4]; [done|].
      destruct (decide (q = l0)) as [->|]; [done|]. by rewrite <- H40.
    + destruct (Hfresh1 q Hq1) as [->|Hq7].
      * destruct (decide (l1 = l0)) as [->|Hne]; [done|].
        rewrite <- H40, <- Hframe0 by done. done.
      * destruct (decide (q = l1)) as [->|Hne1].
        { unfold h7 in Hq7. rewrite lookup_insert_ne, lookup_insert_eq in Hq7 by done.
          discriminate. }
        rewrite H75 in Hq7 by done.
        destruct (decide (q ∈ L0)) as [Hq0|Hq0].
        { destruct (HdomL0 q Hq0) as [? Hq5]. congruence. }
        rewrite Hframe0 in Hq7 by done.
        destruct (decide (q = l0)) as [->|]; [done|]. by rewrite <- H40.
  - intros q Hq.
    assert (q ≠ p ∧ (q ∉ L0) ∧ (q ∉ L1)) as (Hqp & Hq0 & Hq1) by set_solver.
    assert (q ≠ l0 ∧ q ≠ l1) as [? ?] by set_solver.
    rewrite Hframe1, H75, Hframe0, H40 by done. done.
Qed.
End Refinement.

(** ** The entry point in the store *)

Lemma example_store_shape :
  shape example_store 1 example_store_tree example_store_cells.
Proof.
  apply shape_node with [2; 3]; [done|done| |set_solver].
  apply shapes_cons; [|apply shapes_cons|set_solver].
  - apply shape_node with []; [done|done|constructor|set_solver].
  - apply shape_node with []; [done|done|constructor|set_solver].
  - constructor.
  - set_solver.
Qed.

Lemma shape_size h p t L : shape h p t L → size L ≤ size h.
Proof.
  intros Hshape. destruct shape_facts as [Hf _].
  destruct (Hf _ _ _ _ Hshape) as (_ & _ & Hdom & _).
  rewrite <- (size_dom (D := gset loc)). apply subseteq_size.
  intros q Hq. by apply elem_of_dom, Hdom.
Qed.

(** X11. [clear] (lines 34-40, with the destructor of lines 30-32 that
    [delete] runs on each child): on a node that owns a tree it empties the
    node's identifiers and children, releases the cell of every descendant
    and changes no other cell; the node keeps its box. *)
Theorem clear_releases_every_descendant h p t L fuel :
  shape h p t L → length (nodes t) ≤ fuel →
  ∃ h', clear_at fuel h p = Finished h'
        ∧ shape h' p (clear t) {[p]}
        ∧ (∀ q, q ∈ L → q ≠ p → h' !! q = None)
        ∧ (∀ q, q ∉ L → h' !! q = h !! q).
Proof.
  intros Hshape Hfuel. destruct shape_facts as [Hf _].
  destruct (Hf _ _ _ _ Hshape) as (HpL & Hnull & _ & Hsize).
  destruct (clear_at_spec fuel h p t L Hshape ltac:(lia)) as (h' & Hrun & Hp & Hrest).
  exists h'. split; [done|]. split; [|split].
  - replace ({[p]} : gset loc) with ({[p]} ∪ ∅ : gset loc) by set_solver.
    apply shape_node with []; [by intros ->|done|constructor|set_solver].
  - intros q Hq Hqp. by rewrite Hrest, decide_True.
  - intros q Hq. rewrite Hrest by (by intros ->). by rewrite decide_False.
Qed.

Lemma clear_releases_every_descendant_witness :
  ∃ h', clear_at 3 example_store 1 = Finished h'
        ∧ shape h' 1 (clear example_store_tree) {[1]}
        ∧ (∀ q, q ∈ example_store_cells → q ≠ 1 → h' !! q = None)
        ∧ (∀ q, q ∉ example_store_cells → h' !! q = example_store !! q).
Proof.
  apply (clear_releases_every_descendant example_store 1 example_store_tree
           example_store_cells 3).
  - exact example_store_shape.
  - vm_compute. lia.
Defined.

(** X12. [construct_from_leaf_boxes] (lines 42-64) called on a node that
    already owns a tree: when the construction returns, the node owns the
    new tree, one cell for each of its nodes; every cell of the new tree is
    the node itself, a released cell of the old tree or a cell that was not
    in use; the cells of the old tree that the new one does not use are
    released, and no other cell has changed. *)
Theorem rebuilding_releases_the_old_tree
    fresh_box h p t_old L_old this n input_box max_depth boxes_per_leaf t :
  shape h p t_old L_old →
  construct_from_leaf_boxes this n input_box max_depth boxes_per_leaf = Done t →
  ∃ h' L,
    construct_from_leaf_boxes_at fresh_box h p n input_box max_depth
      boxes_per_leaf = Finished h'
    ∧ shape h' p t L
    ∧ size L = length (nodes t)
    ∧ (∀ q, q ∈ L → q = p ∨ q ∈ L_old ∨ h !! q = None)
    ∧ (∀ q, q ∈ L_old → q ∉ L → h' !! q = None)
    ∧ (∀ q, q ∉ L_old → q ∉ L → h' !! q = h !! q).
Proof.
  intros Hshape Hpure. unfold construct_from_leaf_boxes, assert in Hpure.
  unfold construct_from_leaf_boxes_at.
  destruct ((1 <=? n) && (0 <? boxes_per_leaf)); [|done]. cbn [negb].
  cbn [clear index children] in Hpure.
  destruct shape_facts as [Hf _].
  destruct (Hf _ _ _ _ Hshape) as (HpL & Hnull & _ & _).
  assert (p ≠ null) as Hpnull by (by intros ->).
  pose proof (shape_size _ _ _ _ Hshape) as Hsize.
  destruct (clear_at_spec (S (size h)) h p t_old L_old Hshape ltac:(lia))
    as (h1 & -> & Hp1 & Hrest).
  cbn [and_then].
  pose proof (construct_recursively_at_refines input_box max_depth
                boxes_per_leaf (global_centroid n input_box) fresh_box
                n h1 p 0 n (seq 0 n) 0 _ Hp1 Hpnull) as Href.
  destruct (construct_recursively _ _ _ _ _ _ _ _ _ _ _) as [[t' a']| |];
    [|done..].
  cbn [bind] in Hpure. injection Hpure as ->.
  destruct Href as (h' & L & -> & Hshape' & Hfresh & Hframe).
  cbn [and_then]. exists h', L. split; [done|]. split; [done|].
  destruct (Hf _ _ _ _ Hshape') as (HpL' & _ & _ & Hcount).
  split; [done|]. split; [|split].
  - intros q Hq. destruct (Hfresh q Hq) as [->|Hq1]; [by left|].
    destruct (decide (q = p)) as [->|Hqp]; [by left|]. right.
    rewrite Hrest in Hq1 by done. destruct (decide (q ∈ L_old)); auto.
  - intros q Hq HqL. rewrite Hframe by done.
    rewrite Hrest by (by intros ->). by rewrite decide_True.
  - intros q Hq HqL. rewrite Hframe by done.
    rewrite Hrest by (by intros ->). by rewrite decide_False.
Qed.

Lemma rebuilding_releases_the_old_tree_witness :
  ∃ t, construct_from_leaf_boxes empty_tree 4 example_boxes 30 1 = Done t
  ∧ ∃ h' L,
    construct_from_leaf_boxes_at inhabitant example_store 1 4 example_boxes
      30 1 = Finished h'
    ∧ shape h' 1 t L
    ∧ size L = length (nodes t)
    ∧ (∀ q, q ∈ L → q = 1 ∨ q ∈ example_store_cells ∨ example_store !! q = None)
    ∧ (∀ q, q ∈ example_store_cells → q ∉ L → h' !! q = None)
    ∧ (∀ q, q ∉ example_store_cells → q ∉ L → h' !! q = example_store !! q).
Proof.
  eexists. split; [vm_compute; reflexivity|].
  apply (rebuilding_releases_the_old_tree inhabitant example_store 1
           example_store_tree example_store_cells empty_tree 4 example_boxes
           30 1).
  - exact example_store_shape.
  - vm_compute. reflexivity.
Defined.

(** X13. On a node that owns a tree, [construct_from_leaf_boxes] follows no
    null or dangling pointer, and it stops at an assertion (lines 48, 77
    and 134) in the store exactly when the run on trees does. *)
Theorem rebuilding_follows_no_dangling_pointer
    fresh_box h p t_old L_old this n input_box max_depth boxes_per_leaf :
  shape h p t_old L_old →
  construct_from_leaf_boxes_at fresh_box h p n input_box max_depth
    boxes_per_leaf ≠ MemoryFault
  ∧ (construct_from_leaf_boxes_at fresh_box h p n input_box max_depth
       boxes_per_leaf = AssertionStop
     ↔ construct_from_leaf_boxes this n input_box max_depth boxes_per_leaf
       = AssertionFailed).
Proof.
  intros Hshape. unfold construct_from_leaf_boxes, assert.
  unfold construct_from_leaf_boxes_at.
  destruct ((1 <=? n) && (0 <? boxes_per_leaf)); [|done]. cbn [negb].
  cbn [clear index children].
  destruct shape_facts as [Hf _].
  destruct (Hf _ _ _ _ Hshape) as (HpL & Hnull & _ & _).
  assert (p ≠ null) as Hpnull by (by intros ->).
  pose proof (shape_size _ _ _ _ Hshape) as Hsize.
  destruct (clear_at_spec (S (size h)) h p t_old L_old Hshape ltac:(lia))
    as (h1 & -> & Hp1 & Hrest).
  cbn [and_then].
  pose proof (construct_recursively_at_refines input_box max_depth
                boxes_per_leaf (global_centroid n input_box) fresh_box
                n h1 p 0 n (seq 0 n) 0 _ Hp1 Hpnull) as Href.
  destruct (construct_recursively _ _ _ _ _ _ _ _ _ _ _) as [[t' a']| |];
    cbn [bind].
  - destruct Href as (h' & L & -> & _). by cbn.
  - by rewrite Href.
  - by rewrite Href.
Qed.

Lemma rebuilding_follows_no_dangling_pointer_witness :
  construct_from_leaf_boxes_at inhabitant example_store 1 2 adjacent_boxes
    30 1 ≠ MemoryFault
  ∧ (construct_from_leaf_boxes_at inhabitant example_store 1 2 adjacent_boxes
       30 1 = AssertionStop
     ↔ construct_from_leaf_boxes empty_tree 2 adjacent_boxes 30 1
       = AssertionFailed).
Proof.
  apply (rebuilding_follows_no_dangling_pointer inhabitant example_store 1
           example_store_tree example_store_cells empty_tree 2 adjacent_boxes
           30 1).
  exact example_store_shape.
Defined.
